(** * Networking-Graph: the undirected graph of [graph.py], its edges
    ([edge.py]) and the weighted specialisation ([weighted_graph.py]).

    The Python classes are embedded shallowly.  A [Graph] object is the
    record of its two list attributes.  Methods that mutate [self] are
    computations in a state-and-exception monad over that record, so the
    state an exception leaves behind is part of the model; read-only
    methods are functions from the record to a [result]. *)

From Stdlib Require Import ZArith Lia.
From stdpp Require Import base decidable option list list_numbers strings.

#[local] Set Warnings "-clear-no-such-hyp".

(** ** Exceptions and results *)

(** The two built-in exceptions the code can raise: [IndexError] (a list
    subscript out of range; the specification calls it IndexOutOfBounds)
    and [ValueError] ([list.index] on an absent value; NotFound). *)
Inductive exn : Set :=
  | IndexError
  | ValueError.

Inductive result (A : Type) : Type :=
  | Ok (a : A)
  | Raise (e : exn).
Arguments Ok {A} a.
Arguments Raise {A} e.

#[global] Instance exn_eq_dec : EqDecision exn.
Proof. solve_decision. Defined.

#[global] Instance result_ret : MRet result := λ A, @Ok A.
#[global] Instance result_bind : MBind result := λ A B f r,
  match r with
  | Ok a => f a
  | Raise e => Raise e
  end.

(** ** Python lists *)

Module PyList.

(** A subscript is resolved the way CPython does it: a negative subscript is
    first shifted by [len(l)], and the shifted value must lie in
    [0, len(l)). *)
Definition norm_index (n : nat) (i : Z) : option nat :=
  let j := if (i <? 0)%Z then (i + Z.of_nat n)%Z else i in
  if ((0 <=? j) && (j <? Z.of_nat n))%Z then Some (Z.to_nat j) else None.

(** [l[i]] *)
Definition getitem {A} (l : list A) (i : Z) : result A :=
  match norm_index (length l) i with
  | Some k =>
      match l !! k with
      | Some x => Ok x
      | None => Raise IndexError
      end
  | None => Raise IndexError
  end.

(** [l.index(x)]: the position of the first element equal to [x].  Python
    compares with [==]; the element type comes with a decidable equality
    that stands for it. *)
Definition index `{EqDecision A} (l : list A) (x : A) : result Z :=
  match list_find (λ y, y = x) l with
  | Some (k, _) => Ok (Z.of_nat k)
  | None => Raise ValueError
  end.

(** [l[i].append(x)] on a list of lists: the subscript is resolved first
    (and may raise), then the inner list grows in place. *)
Definition append_at {A} (l : list (list A)) (i : Z) (x : A)
  : result (list (list A)) :=
  match norm_index (length l) i with
  | Some k => Ok (alter (λ inner, inner ++ [x]) k l)
  | None => Raise IndexError
  end.

End PyList.

(** ** edge.py *)

Module Edge.

Record Edge : Set := mkEdge { u : Z; v : Z }.

Definition reversed (self : Edge) : Edge := mkEdge (v self) (u self).

End Edge.

Abbreviation Edge := Edge.Edge.

#[global] Instance Edge_eq_dec : EqDecision Edge.
Proof. solve_decision. Defined.

(** What [Graph] uses of an edge object: the attributes [u] and [v] and the
    method [reversed()].  [Graph.add_edge] is inherited by [WeightedGraph]
    and dispatches [reversed] on the edge object it is given. *)
Class EdgeLike (E : Type) := {
  edge_u : E → Z;
  edge_v : E → Z;
  edge_reversed : E → E
}.

#[global] Instance Edge_EdgeLike : EdgeLike Edge := {|
  edge_u := Edge.u;
  edge_v := Edge.v;
  edge_reversed := Edge.reversed
|}.

(** ** weighted_edge.py *)

Module WeightedEdge.

Section WeightedEdge.
Context {W : Type}.

(** Modelled from the spec: the class [WeightedEdge] of [weighted_edge.py],
    which [weighted_graph.py] imports and which is not among the sources.
    The specification gives it as "Edge plus a floating-point weight", built
    as [WeightedEdge(u, v, weight)], "with the reverse entry carrying the
    same weight".  The weight is kept abstract: the graph only stores it and
    hands it back. *)
Record WeightedEdge : Type := mkWeightedEdge { u : Z; v : Z; weight : W }.

(** Modelled from the spec: [WeightedEdge.reversed()], endpoints swapped and
    the weight kept. *)
Definition reversed (self : WeightedEdge) : WeightedEdge :=
  mkWeightedEdge (v self) (u self) (weight self).

End WeightedEdge.

Arguments WeightedEdge : clear implicits.

End WeightedEdge.

Abbreviation WeightedEdge := WeightedEdge.WeightedEdge.

#[global] Instance WeightedEdge_EdgeLike {W} : EdgeLike (WeightedEdge W) := {|
  edge_u := WeightedEdge.u;
  edge_v := WeightedEdge.v;
  edge_reversed := WeightedEdge.reversed
|}.

(** ** graph.py *)

Module Graph.

Section Graph.
Context {V : Type} `{EqDecision V} {E : Type} `{EdgeLike E}.

(** The two attributes of a [Graph] object.  [__init__] keeps the very list
    it is given, so another holder of that list can change [_vertices]
    between two calls; no relation between the two fields is built into the
    record, and a statement that needs one names it. *)
Record Graph : Type := mkGraph {
  _vertices : list V;
  _edges : list (list E)
}.

(** A method body runs on [self]; when it raises, [self] stays as it was at
    that moment. *)
Definition M (A : Type) : Type := Graph → result A * Graph.

#[global] Instance M_ret : MRet M := λ A a self, (Ok a, self).
#[global] Instance M_bind : MBind M := λ A B k m self,
  match m self with
  | (Ok a, self') => k a self'
  | (Raise e, self') => (Raise e, self')
  end.

(** A read-only method used as a step of a mutating one. *)
Definition query {A} (q : Graph → result A) : M A := λ self, (q self, self).

(** [self._vertices.append(x)] *)
Definition _vertices_append (x : V) : M unit := λ self,
  (Ok tt, mkGraph (_vertices self ++ [x]) (_edges self)).

(** [self._edges.append(l)] *)
Definition _edges_append (l : list E) : M unit := λ self,
  (Ok tt, mkGraph (_vertices self) (_edges self ++ [l])).

(** [self._edges[i].append(e)] *)
Definition _edges_append_at (i : Z) (e : E) : M unit := λ self,
  match PyList.append_at (_edges self) i e with
  | Ok es => (Ok tt, mkGraph (_vertices self) es)
  | Raise x => (Raise x, self)
  end.

Definition __init__ (vertices : list V) : Graph :=
  mkGraph vertices (map (λ _, []) vertices).

Definition vertex_count (self : Graph) : Z :=
  Z.of_nat (length (_vertices self)).

Definition edge_count (self : Graph) : Z :=
  Z.of_nat (sum_list (map length (_edges self))).

Definition add_vertex (vertex : V) : M Z :=
  _vertices_append vertex;;
  _edges_append [];;
  n ← query (λ self, Ok (vertex_count self));
  mret (n - 1)%Z.

Definition add_edge (edge : E) : M unit :=
  _edges_append_at (edge_u edge) edge;;
  _edges_append_at (edge_v edge) (edge_reversed edge).

Definition vertex_at (self : Graph) (index : Z) : result V :=
  PyList.getitem (_vertices self) index.

Definition index_of (self : Graph) (vertex : V) : result Z :=
  PyList.index (_vertices self) vertex.

Definition neighbors_for_index (self : Graph) (index : Z) : result (list V) :=
  es ← PyList.getitem (_edges self) index;
  mapM (vertex_at self) (map edge_v es).

Definition neighbors_for_vertex (self : Graph) (vertex : V)
  : result (list V) :=
  i ← index_of self vertex; neighbors_for_index self i.

Definition edges_for_index (self : Graph) (index : Z) : result (list E) :=
  PyList.getitem (_edges self) index.

Definition edges_for_vertex (self : Graph) (vertex : V) : result (list E) :=
  i ← index_of self vertex; edges_for_index self i.

End Graph.

Arguments Graph : clear implicits.
Arguments M : clear implicits.

(** The two convenience methods of the unweighted class build an [Edge]. *)
Section Unweighted.
Context {V : Type} `{EqDecision V}.

Definition add_edge_by_indices (u v : Z) : M V Edge unit :=
  add_edge (Edge.mkEdge u v).

Definition add_edge_by_vertices (first second : V) : M V Edge unit :=
  u ← query (λ self, PyList.index (_vertices self) first);
  v ← query (λ self, PyList.index (_vertices self) second);
  add_edge_by_indices u v.

End Unweighted.

End Graph.

Abbreviation Graph := Graph.Graph.

(** ** weighted_graph.py *)

Module WeightedGraph.

Section WeightedGraph.
Context {V : Type} `{EqDecision V} {W : Type}.

(** A [WeightedGraph] is a [Graph] whose adjacency lists hold weighted
    edges; everything it does not override is [Graph]'s. *)
Definition WeightedGraph : Type := Graph V (WeightedEdge W).

Definition __init__ (vertices : list V) : WeightedGraph :=
  Graph.mkGraph vertices (map (λ _, []) vertices).

Definition add_edge_by_indices (u v : Z) (weight : W)
  : Graph.M V (WeightedEdge W) unit :=
  Graph.add_edge (WeightedEdge.mkWeightedEdge u v weight).

Definition add_edge_by_vertices (first second : V) (weight : W)
  : Graph.M V (WeightedEdge W) unit :=
  u ← Graph.query (λ self, PyList.index (Graph._vertices self) first);
  v ← Graph.query (λ self, PyList.index (Graph._vertices self) second);
  add_edge_by_indices u v weight.

Definition neighbors_for_index_with_weights (self : WeightedGraph)
  (index : Z) : result (list (V * W)) :=
  es ← Graph.edges_for_index self index;
  mapM (λ edge, x ← Graph.vertex_at self (WeightedEdge.v edge);
                mret (x, WeightedEdge.weight edge)) es.

End WeightedGraph.

Arguments WeightedGraph : clear implicits.

End WeightedGraph.

(** ** The class invariant

    The adjacency sequence has one list per vertex, and every stored edge
    points to a position [l[i]] can resolve in the vertex sequence.  The
    constructor establishes it; [add_vertex] and every [add_edge] that
    returns keep it (shown below). *)

Definition in_range (n : nat) (i : Z) : Prop :=
  (- Z.of_nat n ≤ i < Z.of_nat n)%Z.

#[global] Instance in_range_dec n i : Decision (in_range n i).
Proof. unfold in_range. apply _. Defined.

Definition graph_inv {V E} `{EdgeLike E} (G : Graph V E) : Prop :=
  length (Graph._edges G) = length (Graph._vertices G) ∧
  Forall (Forall (λ e, in_range (length (Graph._vertices G)) (edge_v e)))
    (Graph._edges G).

#[global] Instance graph_inv_dec {V E} `{EdgeLike E} (G : Graph V E) :
  Decision (graph_inv G).
Proof. unfold graph_inv. apply _. Defined.

(** [reversed()] swaps the endpoints, for both edge classes. *)
Class EdgeLawful (E : Type) `{EdgeLike E} := {
  edge_u_reversed : ∀ e : E, edge_u (edge_reversed e) = edge_v e;
  edge_v_reversed : ∀ e : E, edge_v (edge_reversed e) = edge_u e
}.

#[global] Instance Edge_EdgeLawful : EdgeLawful Edge.
Proof. split; by intros []. Qed.

#[global] Instance WeightedEdge_EdgeLawful {W} : EdgeLawful (WeightedEdge W).
Proof. split; by intros []. Qed.

(** ** Graphs a client builds

    [built k G]: [G] comes from the constructor through calls of
    [add_vertex], of [add_edge_by_indices] with both positions in
    [0, vertex_count), and of [add_edge_by_vertices], every one of which
    returned; [k] counts the edge-adding calls.  This is how the module's own
    script builds its city graph.

    [__init__] stores the list object it is given, and the default argument
    is one list shared by every [Graph()]: whoever else holds that list, the
    caller or another graph, can change it between two calls.
    [built_vertices_changed] is that step: the vertex sequence is replaced by
    any other one while the adjacency sequence, which [__init__] creates
    afresh and only the graph's own methods reach, stays. *)
Inductive built {V : Type} `{EqDecision V} : nat → Graph V Edge → Prop :=
  | built_init (vertices : list V) :
      built 0 (Graph.__init__ vertices)
  | built_vertices_changed k G (vertices : list V) :
      built k G →
      built k (Graph.mkGraph vertices (Graph._edges G))
  | built_add_vertex k G x :
      built k G →
      built k (Graph.add_vertex x G).2
  | built_add_edge_by_indices k G u v G' :
      built k G →
      (0 ≤ u < Graph.vertex_count G)%Z →
      (0 ≤ v < Graph.vertex_count G)%Z →
      Graph.add_edge_by_indices u v G = (Ok tt, G') →
      built (S k) G'
  | built_add_edge_by_vertices k G first second G' :
      built k G →
      Graph.add_edge_by_vertices first second G = (Ok tt, G') →
      built (S k) G'.

(** How often [e] occurs in a list of edges. *)
Definition occurrences (e : Edge) (es : list Edge) : nat :=
  length (filter (λ e', e' = e) es).

(** What the adjacency sequence of every built graph satisfies, whatever
    became of the vertex sequence: an entry of the list at position [k]
    starts at [k] and ends at a position that has an adjacency list; and the
    entry [k -> j] occurs in the list at [k] as often as [j -> k] occurs in
    the list at [j]. *)
Definition adjacency_wf {V} (G : Graph V Edge) : Prop :=
  (∀ k es e, Graph._edges G !! k = Some es → e ∈ es →
     Edge.u e = Z.of_nat k ∧
     (0 ≤ Edge.v e < Z.of_nat (length (Graph._edges G)))%Z) ∧
  (∀ a b es_a es_b,
     Graph._edges G !! a = Some es_a → Graph._edges G !! b = Some es_b →
     occurrences (Edge.mkEdge (Z.of_nat a) (Z.of_nat b)) es_a =
     occurrences (Edge.mkEdge (Z.of_nat b) (Z.of_nat a)) es_b).

(** ** Python lists: subscripts *)

(** Case analysis on the comparisons a subscript goes through. *)
Ltac subscript_cases :=
  unfold PyList.norm_index;
  repeat match goal with
         | |- context [(?a <=? ?b)%Z] => destruct (Z.leb_spec a b)
         | |- context [(?a <? ?b)%Z] => destruct (Z.ltb_spec a b)
         end; simpl.

Lemma norm_index_Some n i k :
  PyList.norm_index n i = Some k ↔
  ((0 ≤ i < Z.of_nat n)%Z ∧ k = Z.to_nat i) ∨
  ((- Z.of_nat n ≤ i < 0)%Z ∧ k = Z.to_nat (i + Z.of_nat n)).
Proof.
  subscript_cases; (split; [intros Hk; simplify_eq; lia|]);
    intros [[? ->]|[? ->]]; first [lia | f_equal; lia].
Qed.

Lemma norm_index_None n i :
  PyList.norm_index n i = None ↔ (i < - Z.of_nat n ∨ Z.of_nat n ≤ i)%Z.
Proof. subscript_cases; split; intros Hk; first [done | lia]. Qed.

Lemma norm_index_lt n i k : PyList.norm_index n i = Some k → k < n.
Proof. rewrite norm_index_Some. lia. Qed.

Lemma norm_index_nonneg n i :
  (0 ≤ i < Z.of_nat n)%Z → PyList.norm_index n i = Some (Z.to_nat i).
Proof. intros. apply norm_index_Some. auto. Qed.

Lemma norm_index_in_range n i : in_range n i ↔ is_Some (PyList.norm_index n i).
Proof.
  unfold in_range. split.
  - intros Hi. destruct (PyList.norm_index n i) eqn:Hk; [by eexists|].
    apply norm_index_None in Hk. lia.
  - intros [k Hk]. apply norm_index_Some in Hk. lia.
Qed.

Lemma getitem_Ok {A} (l : list A) i x :
  PyList.getitem l i = Ok x ↔
  ∃ k, PyList.norm_index (length l) i = Some k ∧ l !! k = Some x.
Proof.
  unfold PyList.getitem. destruct (PyList.norm_index _ _) as [k|] eqn:Hk.
  - destruct (l !! k) eqn:Hl; naive_solver.
  - naive_solver.
Qed.

Lemma getitem_Raise {A} (l : list A) i e :
  PyList.getitem l i = Raise e ↔
  e = IndexError ∧ (i < - Z.of_nat (length l) ∨ Z.of_nat (length l) ≤ i)%Z.
Proof.
  rewrite <-norm_index_None. unfold PyList.getitem.
  destruct (PyList.norm_index _ _) as [k|] eqn:Hk.
  - destruct (lookup_lt_is_Some_2 l k (norm_index_lt _ _ _ Hk)) as [x ->].
    naive_solver.
  - naive_solver.
Qed.

Lemma getitem_in_range {A} (l : list A) i :
  in_range (length l) i → ∃ x, PyList.getitem l i = Ok x.
Proof.
  intros [k Hk]%norm_index_in_range.
  destruct (lookup_lt_is_Some_2 l k (norm_index_lt _ _ _ Hk)) as [x Hx].
  exists x. apply getitem_Ok. eauto.
Qed.

Lemma getitem_nonneg {A} (l : list A) i x :
  (0 ≤ i)%Z → PyList.getitem l i = Ok x ↔ l !! Z.to_nat i = Some x.
Proof.
  intros Hi. rewrite getitem_Ok. split.
  - intros (k & Hk & Hx). apply norm_index_Some in Hk. naive_solver lia.
  - intros Hx. exists (Z.to_nat i). split; [|done].
    apply lookup_lt_Some in Hx. apply norm_index_nonneg. lia.
Qed.

(** ** Python lists: [index] *)

Lemma index_Ok `{EqDecision A} (l : list A) x i :
  PyList.index l x = Ok i ↔
  ∃ k, i = Z.of_nat k ∧ l !! k = Some x ∧ ∀ j, j < k → l !! j ≠ Some x.
Proof.
  unfold PyList.index.
  destruct (list_find _ l) as [[k y]|] eqn:Hf.
  - apply list_find_Some in Hf as (Hk & -> & Hfirst). split.
    + intros [= <-]. exists k. split_and!; [done..|].
      intros j Hj Hx. by eapply Hfirst.
    + intros (k' & -> & Hk' & Hfirst'). f_equal.
      destruct (Nat.lt_trichotomy k k') as [Hlt|[->|Hlt]]; [|done|].
      * by apply Hfirst' in Hlt.
      * by destruct (Hfirst k' x).
  - split; [done|]. intros (k & _ & Hk & _).
    eapply list_find_None, Forall_lookup_1 in Hf; [|done]. done.
Qed.

Lemma index_Raise `{EqDecision A} (l : list A) x e :
  PyList.index l x = Raise e ↔ e = ValueError ∧ x ∉ l.
Proof.
  unfold PyList.index.
  destruct (list_find _ l) as [[k y]|] eqn:Hf.
  - apply list_find_Some in Hf as (Hk & -> & _).
    apply list_elem_of_lookup_2 in Hk. naive_solver.
  - apply list_find_None in Hf. split; [|naive_solver].
    intros [= <-]. split; [done|]. intros Hx.
    by eapply Forall_forall in Hf.
Qed.

Lemma index_elem_of `{EqDecision A} (l : list A) x :
  x ∈ l → ∃ i, PyList.index l x = Ok i.
Proof.
  intros Hx. destruct (PyList.index l x) as [i|e] eqn:Hi; [by eexists|].
  apply index_Raise in Hi as [_ Hi]. done.
Qed.

(** ** Traversals in the [result] monad *)

Lemma mapM_result_Ok {A B} (f : A → result B) l k :
  mapM f l = Ok k ↔ Forall2 (λ x y, f x = Ok y) l k.
Proof.
  revert k. induction l as [|x l IH]; intros k; simpl.
  - split; [intros [= <-]; constructor | by inversion 1].
  - destruct (f x) as [y|e] eqn:Hfx; simpl.
    + destruct (mapM f l) as [k'|e] eqn:Hl; simpl.
      * split.
        -- intros [= <-]. constructor; [done|]. by apply IH.
        -- inversion 1 as [|???? Hy Hk']; subst.
           apply IH in Hk'. unfold mret, result_ret. congruence.
      * split; [done|]. inversion 1 as [|???? Hy Hk']; subst.
        by apply IH in Hk'.
    + split; [done|]. inversion 1; congruence.
Qed.

Lemma mapM_result_total {A B} (f : A → result B) l :
  Forall (λ x, ∃ y, f x = Ok y) l → ∃ k, mapM f l = Ok k.
Proof.
  induction 1 as [|x l [y Hy] _ [k Hk]]; simpl.
  - by eexists.
  - rewrite Hy; simpl. rewrite Hk; simpl. by eexists.
Qed.

(** ** Adjacency lists under [append] *)

Import Graph.

Section adjacency.
Context {E : Type}.
Implicit Types (es : list (list E)) (e : E) (k : nat).

Lemma lookup_alter_snoc es k e j :
  alter (λ inner, inner ++ [e]) k es !! j =
  (λ inner, inner ++ if decide (j = k) then [e] else []) <$> es !! j.
Proof.
  rewrite list_lookup_alter. destruct (decide (k = j)) as [->|Hne].
  - by rewrite decide_True.
  - rewrite decide_False by done.
    destruct (es !! j); simpl; [|done]. by rewrite app_nil_r.
Qed.

(** Both appends of [add_edge], seen from position [j]. *)
Lemma lookup_alter_snoc2 es ku kv e1 e2 j :
  alter (λ inner, inner ++ [e2]) kv (alter (λ inner, inner ++ [e1]) ku es) !! j
  = (λ inner, inner ++ (if decide (j = ku) then [e1] else [])
                    ++ (if decide (j = kv) then [e2] else [])) <$> es !! j.
Proof.
  rewrite !lookup_alter_snoc. destruct (es !! j); simpl; [|done].
  by rewrite <-(assoc_L (++)).
Qed.

Lemma sum_length_alter_snoc es k e :
  k < length es →
  sum_list (map length (alter (λ inner, inner ++ [e]) k es)) =
  S (sum_list (map length es)).
Proof.
  revert k. induction es as [|l es IH]; intros [|k] Hk; simpl in *; try lia.
  - rewrite length_app. simpl. lia.
  - specialize (IH k ltac:(lia)). unfold alter in IH. lia.
Qed.

Lemma sum_length_concat es :
  sum_list (map length es) = length (concat es).
Proof.
  induction es as [|l es IH]; simpl; [done|]. rewrite length_app. lia.
Qed.

End adjacency.

(** ** What the methods compute *)

Section graph_facts.
Context {V : Type} `{EqDecision V} {E : Type} `{EdgeLike E}.
Implicit Types (G : Graph V E) (e : E) (x : V) (i : Z).

(** [add_edge], step by step: the subscript [edge.u] is resolved and the
    first list grows; only then is [edge.v] resolved. *)
Lemma add_edge_unfold e G :
  add_edge e G =
  match PyList.norm_index (length (_edges G)) (edge_u e) with
  | None => (Raise IndexError, G)
  | Some ku =>
      let es1 := alter (λ inner, inner ++ [e]) ku (_edges G) in
      match PyList.norm_index (length (_edges G)) (edge_v e) with
      | None => (Raise IndexError, mkGraph (_vertices G) es1)
      | Some kv =>
          (Ok tt, mkGraph (_vertices G)
                    (alter (λ inner, inner ++ [edge_reversed e]) kv es1))
      end
  end.
Proof.
  unfold add_edge, mbind, M_bind, _edges_append_at, PyList.append_at.
  destruct (PyList.norm_index _ (edge_u e)) as [ku|]; simpl; [|done].
  rewrite length_alter.
  by destruct (PyList.norm_index _ (edge_v e)) as [kv|].
Qed.

Lemma add_edge_Ok e G G' :
  add_edge e G = (Ok tt, G') ↔
  ∃ ku kv,
    PyList.norm_index (length (_edges G)) (edge_u e) = Some ku ∧
    PyList.norm_index (length (_edges G)) (edge_v e) = Some kv ∧
    G' = mkGraph (_vertices G)
           (alter (λ inner, inner ++ [edge_reversed e]) kv
              (alter (λ inner, inner ++ [e]) ku (_edges G))).
Proof.
  rewrite add_edge_unfold.
  destruct (PyList.norm_index _ (edge_u e)) as [ku|];
    [destruct (PyList.norm_index _ (edge_v e)) as [kv|]|]; simpl;
    naive_solver.
Qed.

Lemma add_vertex_unfold x G :
  add_vertex x G =
  (Ok (Z.of_nat (length (_vertices G))),
   mkGraph (_vertices G ++ [x]) (_edges G ++ [[]])).
Proof.
  unfold add_vertex, mbind, M_bind, mret, M_ret, query, vertex_count; simpl.
  do 2 f_equal. rewrite length_app. simpl. lia.
Qed.

Lemma vertex_at_in_range G i :
  in_range (length (_vertices G)) i → ∃ x, vertex_at G i = Ok x.
Proof. apply getitem_in_range. Qed.

Lemma neighbors_for_index_Ok G i ns :
  neighbors_for_index G i = Ok ns ↔
  ∃ es, edges_for_index G i = Ok es ∧
        Forall2 (λ e x, vertex_at G (edge_v e) = Ok x) es ns.
Proof.
  unfold neighbors_for_index, edges_for_index.
  destruct (PyList.getitem (_edges G) i) as [es|err]; simpl.
  - rewrite mapM_result_Ok, Forall2_fmap_l. naive_solver.
  - naive_solver.
Qed.

End graph_facts.

(** ** The invariant is established and kept *)

Section invariant.
Context {V : Type} `{EqDecision V} {E : Type} `{EdgeLawful E}.
Implicit Types (G : Graph V E) (e : E) (x : V) (i : Z).

Lemma graph_inv_init (vertices : list V) :
  graph_inv (__init__ (E:=E) vertices).
Proof.
  split; simpl.
  - by rewrite length_map.
  - apply Forall_fmap, Forall_true. intros ?. simpl. constructor.
Qed.

Lemma graph_inv_add_vertex G x :
  graph_inv G → graph_inv (add_vertex x G).2.
Proof.
  intros [Hlen Hes]. rewrite add_vertex_unfold. split; simpl.
  - rewrite !length_app. simpl. lia.
  - apply Forall_app. split; [|by apply Forall_singleton].
    eapply Forall_impl; [done|]. intros l Hl.
    eapply Forall_impl; [done|]. unfold in_range. intros e.
    rewrite length_app. simpl. lia.
Qed.

Lemma graph_inv_add_edge G e G' :
  graph_inv G → add_edge e G = (Ok tt, G') → graph_inv G'.
Proof.
  intros [Hlen Hes] (ku & kv & Hu & Hv & ->)%add_edge_Ok. split; simpl.
  - by rewrite !length_alter.
  - assert (in_range (length (_vertices G)) (edge_u e)) as Hu'.
    { rewrite <-Hlen. apply norm_index_in_range. eauto. }
    assert (in_range (length (_vertices G)) (edge_v e)) as Hv'.
    { rewrite <-Hlen. apply norm_index_in_range. eauto. }
    repeat apply Forall_alter; try done.
    + intros l _ Hl. apply Forall_app. split; [done|].
      by apply Forall_singleton.
    + intros l _ Hl. apply Forall_app. split; [done|].
      apply Forall_singleton. by rewrite edge_v_reversed.
Qed.

(** Under the invariant every adjacency list resolves to vertices. *)
Lemma neighbors_for_index_total G i :
  graph_inv G → in_range (length (_vertices G)) i →
  ∃ es ns, edges_for_index G i = Ok es ∧ neighbors_for_index G i = Ok ns.
Proof.
  intros [Hlen Hes] Hi. rewrite <-Hlen in Hi.
  destruct (getitem_in_range (_edges G) i Hi) as [es Hget].
  assert (Forall (λ e, in_range (length (_vertices G)) (edge_v e)) es) as Hin.
  { apply getitem_Ok in Hget as (k & _ & Hk).
    by eapply Forall_lookup_1 in Hes. }
  destruct (mapM_result_total (vertex_at G) (map edge_v es)) as [ns Hns].
  { apply Forall_fmap. eapply Forall_impl; [done|].
    intros e He. by apply vertex_at_in_range. }
  exists es, ns. split; [done|].
  unfold neighbors_for_index. unfold edges_for_index in Hget.
  by rewrite Hget.
Qed.

(** The effect of a successful [add_edge], seen through any subscript [i]
    that resolves: the list read at [i] keeps its entries, in place, and the
    new ones come last. *)
Lemma edges_for_index_add_edge G e i ku kv k es :
  PyList.norm_index (length (_edges G)) (edge_u e) = Some ku →
  PyList.norm_index (length (_edges G)) (edge_v e) = Some kv →
  PyList.norm_index (length (_edges G)) i = Some k →
  edges_for_index G i = Ok es →
  edges_for_index (add_edge e G).2 i =
  Ok (es ++ (if decide (k = ku) then [e] else [])
         ++ (if decide (k = kv) then [edge_reversed e] else [])).
Proof.
  intros Hu Hv Hi Hes. rewrite add_edge_unfold, Hu. cbv zeta. rewrite Hv.
  unfold edges_for_index in *. cbn [snd _edges].
  apply getitem_Ok in Hes as (k' & Hk' & Hes).
  assert (k' = k) as -> by congruence.
  apply getitem_Ok. exists k. rewrite !length_alter. split; [done|].
  by rewrite lookup_alter_snoc2, Hes.
Qed.

Lemma vertex_at_add_edge G e i :
  vertex_at (add_edge e G).2 i = vertex_at G i.
Proof.
  rewrite add_edge_unfold. unfold vertex_at.
  by repeat (case_match; simpl).
Qed.

Lemma edge_count_add_edge G e G' :
  add_edge e G = (Ok tt, G') → edge_count G' = (edge_count G + 2)%Z.
Proof.
  intros (ku & kv & Hu & Hv & ->)%add_edge_Ok. unfold edge_count. simpl.
  apply norm_index_lt in Hu, Hv.
  rewrite !sum_length_alter_snoc; rewrite ?length_alter; lia.
Qed.

End invariant.

Section neighbors.
Context {V : Type} `{EqDecision V} {E : Type} `{EdgeLawful E}.
Implicit Types (G : Graph V E) (e : E) (x : V) (i : Z).

Lemma neighbors_for_index_add_edge G e i ku kv k ns xu xv :
  PyList.norm_index (length (_edges G)) (edge_u e) = Some ku →
  PyList.norm_index (length (_edges G)) (edge_v e) = Some kv →
  PyList.norm_index (length (_edges G)) i = Some k →
  vertex_at G (edge_u e) = Ok xu →
  vertex_at G (edge_v e) = Ok xv →
  neighbors_for_index G i = Ok ns →
  neighbors_for_index (add_edge e G).2 i =
  Ok (ns ++ (if decide (k = ku) then [xv] else [])
         ++ (if decide (k = kv) then [xu] else [])).
Proof.
  intros Hu Hv Hi Hxu Hxv (es & Hes & Hns)%neighbors_for_index_Ok.
  apply neighbors_for_index_Ok. eexists. split.
  { by eapply edges_for_index_add_edge. }
  apply Forall2_app; [|apply Forall2_app].
  - eapply Forall2_impl; [done|]. intros e' x' Hx'.
    by rewrite vertex_at_add_edge.
  - case_decide; repeat constructor. by rewrite vertex_at_add_edge.
  - case_decide; repeat constructor.
    by rewrite vertex_at_add_edge, edge_v_reversed.
Qed.

End neighbors.

(** ** Vertices: positions and values *)

(** C3, as amended.  [vertex_at(index)] returns the vertex stored at
    position [index] when [0 <= index < vertex_count]; a negative [index]
    down to [-vertex_count] counts from the end and returns the vertex at
    position [index + vertex_count]; every [index >= vertex_count] and every
    [index < -vertex_count] raises [IndexError]. *)
Theorem vertex_at_subscript {V E} (G : Graph V E) (index : Z) :
  ((0 ≤ index < vertex_count G)%Z →
     ∃ x, _vertices G !! Z.to_nat index = Some x ∧ vertex_at G index = Ok x) ∧
  ((- vertex_count G ≤ index < 0)%Z →
     ∃ x, _vertices G !! Z.to_nat (index + vertex_count G) = Some x ∧
          vertex_at G index = Ok x) ∧
  ((index < - vertex_count G ∨ vertex_count G ≤ index)%Z →
     vertex_at G index = Raise IndexError).
Proof.
  unfold vertex_count, vertex_at. split_and!.
  - intros Hi.
    destruct (lookup_lt_is_Some_2 (_vertices G) (Z.to_nat index)) as [x Hx];
      [lia|].
    exists x. split; [done|]. apply getitem_Ok. exists (Z.to_nat index).
    split; [|done]. by apply norm_index_nonneg.
  - intros Hi. set (k := Z.to_nat (index + _)).
    destruct (lookup_lt_is_Some_2 (_vertices G) k) as [x Hx]; [lia|].
    exists x. split; [done|]. apply getitem_Ok. exists k.
    split; [|done]. apply norm_index_Some. right. done.
  - intros Hi. by apply getitem_Raise.
Qed.

(** The three cases of [vertex_at_subscript] on a two-vertex graph. *)
Lemma vertex_at_subscript_witness :
  let G : Graph string Edge := __init__ ["A"; "B"] in
  vertex_at G 1 = Ok "B" ∧ vertex_at G (-2) = Ok "A" ∧
  vertex_at G 2 = Raise IndexError ∧ vertex_at G (-3) = Raise IndexError.
Proof.
  intros G.
  destruct (vertex_at_subscript G 1) as (H1 & _ & _).
  destruct (vertex_at_subscript G (-2)) as (_ & H2 & _).
  destruct (vertex_at_subscript G 2) as (_ & _ & H3).
  destruct (vertex_at_subscript G (-3)) as (_ & _ & H4).
  split_and!.
  - destruct H1 as (x & Hx & ->); [vm_compute; split; congruence|].
    vm_compute in Hx. congruence.
  - destruct H2 as (x & Hx & ->); [vm_compute; split; congruence|].
    vm_compute in Hx. congruence.
  - apply H3. right. vm_compute. congruence.
  - apply H4. left. reflexivity.
Defined.

(** C3, as stated, fails: [-1] is outside [0, vertex_count) and
    [vertex_at(-1)] returns the last vertex instead of raising. *)
Lemma vertex_at_negative_index_returns :
  let G : Graph string Edge := __init__ ["A"; "B"] in
  ¬ (0 ≤ -1 < vertex_count G)%Z ∧ vertex_at G (-1) = Ok "B".
Proof. split; [lia | reflexivity]. Qed.

(** C6.  With pairwise distinct vertex values, [index_of(vertex_at(i)) = i]
    for every [0 <= i < vertex_count]; in general [index_of(x)] is the
    lowest position holding [x]. *)
Theorem index_of_vertex_at {V E} `{EqDecision V} (G : Graph V E) :
  (NoDup (_vertices G) →
   ∀ i, (0 ≤ i < vertex_count G)%Z →
        ∃ x, vertex_at G i = Ok x ∧ index_of G x = Ok i) ∧
  (∀ x, x ∈ _vertices G →
        ∃ k, index_of G x = Ok (Z.of_nat k) ∧
             _vertices G !! k = Some x ∧
             ∀ j, j < k → _vertices G !! j ≠ Some x).
Proof.
  split.
  - intros Hnd i Hi.
    destruct (vertex_at_subscript G i) as [Hat _].
    destruct (Hat Hi) as (x & Hx & Hvx). exists x. split; [done|].
    apply index_Ok. exists (Z.to_nat i). split_and!; [lia|done|].
    intros j Hj Hjx. pose proof (NoDup_lookup _ _ _ _ Hnd Hx Hjx). lia.
  - intros x Hx. destruct (index_elem_of _ _ Hx) as [i Hi].
    apply index_Ok in Hi as Hk. destruct Hk as (k & -> & Hk & Hfirst).
    by exists k.
Qed.

(** The round trip at position 2 of three distinct vertices, and the first
    match among duplicates. *)
Lemma index_of_vertex_at_witness :
  (let G : Graph string Edge := __init__ ["A"; "B"; "C"] in
   ∃ x, vertex_at G 2 = Ok x ∧ index_of G x = Ok 2%Z) ∧
  (let G : Graph string Edge := __init__ ["A"; "B"; "A"; "B"] in
   ∃ k, index_of G "B" = Ok (Z.of_nat k) ∧ _vertices G !! k = Some "B" ∧
        ∀ j, j < k → _vertices G !! j ≠ Some "B").
Proof.
  split; intros G.
  - apply (index_of_vertex_at G); [|vm_compute; split; congruence].
    compute_done.
  - apply (index_of_vertex_at G). compute_done.
Defined.

(** C7.  [index_of(x)] raises [ValueError] exactly when [x] is absent (and
    raises nothing else); [add_edge_by_vertices] raises it when either value
    is absent, before anything is changed. *)
Theorem index_of_not_found {V} `{EqDecision V} (G : Graph V Edge)
    (x first second : V) :
  (index_of G x = Raise ValueError ↔ x ∉ _vertices G) ∧
  (∀ e, index_of G x = Raise e → e = ValueError) ∧
  (first ∉ _vertices G ∨ second ∉ _vertices G →
   add_edge_by_vertices first second G = (Raise ValueError, G)).
Proof.
  unfold index_of. split_and!.
  - rewrite index_Raise. naive_solver.
  - intros e He. by apply index_Raise in He as [-> _].
  - intros Habs.
    unfold add_edge_by_vertices, mbind, M_bind, query.
    destruct (PyList.index (_vertices G) first) as [iu|e] eqn:Hfirst.
    + destruct (PyList.index (_vertices G) second) as [iv|e] eqn:Hsecond.
      * apply index_Ok in Hfirst as (? & _ & ?%list_elem_of_lookup_2 & _).
        apply index_Ok in Hsecond as (? & _ & ?%list_elem_of_lookup_2 & _).
        by destruct Habs.
      * by apply index_Raise in Hsecond as [-> _].
    + by apply index_Raise in Hfirst as [-> _].
Qed.

(** An absent second value: the call raises and the graph is as before. *)
Lemma index_of_not_found_witness :
  let G : Graph string Edge := __init__ ["A"; "B"] in
  add_edge_by_vertices "A" "Z" G = (Raise ValueError, G).
Proof.
  intros G. apply (index_of_not_found G "Z" "A" "Z"). right. compute_done.
Defined.

(** C8.  [add_vertex(x)] always returns; it appends [x] to the vertices and
    an empty list to the adjacency sequence, so both grow by one and are
    equally long afterwards exactly if they were before; [vertex_count]
    grows by one, and the result is the new length minus one, the position
    of [x]. *)
Theorem add_vertex_appends {V E} (G : Graph V E) (x : V) :
  ∃ G' idx,
    add_vertex x G = (Ok idx, G') ∧
    _vertices G' = _vertices G ++ [x] ∧
    _edges G' = _edges G ++ [[]] ∧
    (length (_edges G') = length (_vertices G') ↔
     length (_edges G) = length (_vertices G)) ∧
    vertex_count G' = (vertex_count G + 1)%Z ∧
    idx = (vertex_count G' - 1)%Z ∧
    vertex_at G' idx = Ok x.
Proof.
  eexists _, _. split; [apply add_vertex_unfold|]. simpl.
  unfold vertex_count. simpl. rewrite !length_app. simpl.
  split_and!; try done; try lia.
  apply getitem_nonneg; [lia|]. rewrite Nat2Z.id. apply list_lookup_middle.
  done.
Qed.

(** ** Adding an edge between two positions counted from the front *)

Section add_edge_valid.
Context {V : Type} `{EqDecision V} {E : Type} `{EdgeLawful E}.
Implicit Types (G : Graph V E) (e : E) (x : V) (i : Z).

Lemma add_edge_valid G e :
  graph_inv G →
  (0 ≤ edge_u e < vertex_count G)%Z →
  (0 ≤ edge_v e < vertex_count G)%Z →
  ∃ G' xu xv,
    add_edge e G = (Ok tt, G') ∧
    _vertices G' = _vertices G ∧
    graph_inv G' ∧
    vertex_at G (edge_u e) = Ok xu ∧
    vertex_at G (edge_v e) = Ok xv ∧
    edge_count G' = (edge_count G + 2)%Z ∧
    ∀ i, (0 ≤ i < vertex_count G)%Z →
      ∃ es ns,
        edges_for_index G i = Ok es ∧
        neighbors_for_index G i = Ok ns ∧
        edges_for_index G' i =
          Ok (es ++ (if decide (i = edge_u e) then [e] else [])
                 ++ (if decide (i = edge_v e) then [edge_reversed e] else []))
        ∧
        neighbors_for_index G' i =
          Ok (ns ++ (if decide (i = edge_u e) then [xv] else [])
                 ++ (if decide (i = edge_v e) then [xu] else [])).
Proof.
  intros Hinv Hu Hv. pose proof Hinv as [Hlen _].
  unfold vertex_count in *. rewrite <-Hlen in Hu, Hv.
  pose proof (norm_index_nonneg _ _ Hu) as Hku.
  pose proof (norm_index_nonneg _ _ Hv) as Hkv.
  destruct (vertex_at_in_range G (edge_u e)) as [xu Hxu].
  { unfold in_range. lia. }
  destruct (vertex_at_in_range G (edge_v e)) as [xv Hxv].
  { unfold in_range. lia. }
  destruct (add_edge e G) as [r G'] eqn:Hadd.
  assert (r = Ok tt) as ->.
  { rewrite add_edge_unfold, Hku in Hadd. cbv zeta in Hadd.
    rewrite Hkv in Hadd. congruence. }
  exists G', xu, xv. split_and!; try done.
  - apply add_edge_Ok in Hadd as (? & ? & _ & _ & ->). done.
  - by eapply graph_inv_add_edge.
  - by eapply edge_count_add_edge.
  - intros i Hi. rewrite <-Hlen in Hi.
    pose proof (norm_index_nonneg _ _ Hi) as Hki.
    destruct (neighbors_for_index_total G i Hinv) as (es & ns & Hes & Hns).
    { unfold in_range. lia. }
    exists es, ns. split_and!; [done..| |].
    + replace G' with (add_edge e G).2 by by rewrite Hadd.
      erewrite edges_for_index_add_edge by done.
      do 3 f_equal; repeat case_decide; first [done | lia].
    + replace G' with (add_edge e G).2 by by rewrite Hadd.
      erewrite neighbors_for_index_add_edge by done.
      do 3 f_equal; repeat case_decide; first [done | lia].
Qed.

End add_edge_valid.

(** ** Edges of the unweighted graph *)

(** C1.  On a graph satisfying the class invariant, with [u] and [v] in
    [0, vertex_count), [add_edge_by_indices(u, v)] returns, leaves the
    vertices alone, and adds exactly two entries: [Edge(u, v)] at the end of
    the adjacency list of [u] and [Edge(v, u)] at the end of that of [v].
    Every adjacency list keeps its earlier entries in place, the count of
    entries grows by two, and afterwards the vertex at [v] is among
    [neighbors_for_index(u)] and the vertex at [u] among
    [neighbors_for_index(v)]. *)
Theorem add_edge_by_indices_symmetric {V} `{EqDecision V}
    (G : Graph V Edge) (u v : Z) :
  graph_inv G →
  (0 ≤ u < vertex_count G)%Z →
  (0 ≤ v < vertex_count G)%Z →
  ∃ G' xu xv,
    add_edge_by_indices u v G = (Ok tt, G') ∧
    _vertices G' = _vertices G ∧
    length (_edges G') = length (_edges G) ∧
    edge_count G' = (edge_count G + 2)%Z ∧
    vertex_at G' u = Ok xu ∧ vertex_at G' v = Ok xv ∧
    (∀ i, (0 ≤ i < vertex_count G)%Z →
       ∃ es, edges_for_index G i = Ok es ∧
             edges_for_index G' i =
               Ok (es ++ (if decide (i = u) then [Edge.mkEdge u v] else [])
                      ++ (if decide (i = v) then [Edge.mkEdge v u] else []))) ∧
    (∃ nu, neighbors_for_index G' u = Ok nu ∧ xv ∈ nu) ∧
    (∃ nv, neighbors_for_index G' v = Ok nv ∧ xu ∈ nv).
Proof.
  intros Hinv Hu Hv.
  destruct (add_edge_valid G (Edge.mkEdge u v) Hinv Hu Hv)
    as (G' & xu & xv & Hadd & Hvs & Hinv' & Hxu & Hxv & Hcount & Hall).
  simpl in *. exists G', xu, xv. split_and!; try done.
  - destruct Hinv as [-> _], Hinv' as [-> _]. by rewrite Hvs.
  - unfold vertex_at in *. by rewrite Hvs.
  - unfold vertex_at in *. by rewrite Hvs.
  - intros i Hi. destruct (Hall i Hi) as (es & ns & Hes & _ & Hes' & _).
    by exists es.
  - destruct (Hall u Hu) as (es & ns & _ & _ & _ & ->).
    eexists. split; [done|]. rewrite decide_True by done.
    rewrite !elem_of_app. right. left. apply list_elem_of_here.
  - destruct (Hall v Hv) as (es & ns & _ & _ & _ & ->).
    eexists. split; [done|]. rewrite (decide_True (P:=v = v)) by done.
    rewrite !elem_of_app. right. right. apply list_elem_of_here.
Qed.

(** The edge A-B of the three-vertex example. *)
Lemma add_edge_by_indices_symmetric_witness :
  let G : Graph string Edge := __init__ ["A"; "B"; "C"] in
  ∃ G' xu xv,
    add_edge_by_indices 0 1 G = (Ok tt, G') ∧
    _vertices G' = _vertices G ∧
    length (_edges G') = length (_edges G) ∧
    edge_count G' = (edge_count G + 2)%Z ∧
    vertex_at G' 0 = Ok xu ∧ vertex_at G' 1 = Ok xv ∧
    (∀ i, (0 ≤ i < vertex_count G)%Z →
       ∃ es, edges_for_index G i = Ok es ∧
             edges_for_index G' i =
               Ok (es ++ (if decide (i = 0%Z) then [Edge.mkEdge 0 1] else [])
                      ++ (if decide (i = 1%Z) then [Edge.mkEdge 1 0] else []))) ∧
    (∃ nu, neighbors_for_index G' 0 = Ok nu ∧ xv ∈ nu) ∧
    (∃ nv, neighbors_for_index G' 1 = Ok nv ∧ xu ∈ nv).
Proof.
  intros G. apply (add_edge_by_indices_symmetric G 0 1).
  - compute_done.
  - vm_compute. split; congruence.
  - vm_compute. split; congruence.
Defined.

(** C5.  [edge_count] is the sum of the lengths of the adjacency lists, that
    is the number of directional entries stored.  An [add_edge] whose two
    endpoints resolve as subscripts of the adjacency sequence returns, and
    every [add_edge] that returns raises [edge_count] by exactly two. *)
Theorem edge_count_counts_entries {V E} `{EdgeLike E} (G : Graph V E) :
  edge_count G = Z.of_nat (sum_list (length <$> _edges G)) ∧
  edge_count G = Z.of_nat (length (concat (_edges G))) ∧
  (∀ e G', add_edge e G = (Ok tt, G') →
           edge_count G' = (edge_count G + 2)%Z) ∧
  (∀ e, in_range (length (_edges G)) (edge_u e) →
        in_range (length (_edges G)) (edge_v e) →
        ∃ G', add_edge e G = (Ok tt, G') ∧
              edge_count G' = (edge_count G + 2)%Z).
Proof.
  split_and!.
  - done.
  - unfold edge_count. by rewrite sum_length_concat.
  - intros e G'. apply edge_count_add_edge.
  - intros e [ku Hku]%norm_index_in_range [kv Hkv]%norm_index_in_range.
    destruct (add_edge e G) as [r G'] eqn:Hadd.
    assert (r = Ok tt) as ->.
    { rewrite add_edge_unfold, Hku in Hadd. cbv zeta in Hadd.
      rewrite Hkv in Hadd. congruence. }
    exists G'. split; [done|]. by eapply edge_count_add_edge.
Qed.

(** The edge C-A added to a graph that already holds A-B: the call returns
    and the count goes from 2 to 4. *)
Lemma edge_count_counts_entries_witness :
  let G : Graph string Edge :=
    mkGraph ["A"; "B"; "C"] [[Edge.mkEdge 0 1]; [Edge.mkEdge 1 0]; []] in
  edge_count G = 2%Z ∧
  ∃ G', add_edge (Edge.mkEdge 2 0) G = (Ok tt, G') ∧
        edge_count G' = (edge_count G + 2)%Z.
Proof.
  intros G. split; [reflexivity|].
  destruct (edge_count_counts_entries G) as (_ & _ & _ & Hvalid).
  apply (Hvalid (Edge.mkEdge 2 0)); compute_done.
Defined.

(** C9.  On a graph satisfying the class invariant and for
    [0 <= i < vertex_count], [neighbors_for_index(i)] returns the list whose
    k-th element is [vertex_at(e.v)] for the k-th edge [e] of the adjacency
    list of [i], no more and no fewer; an [add_edge] that returns leaves
    these neighbours in place and lists the new ones after them. *)
Theorem neighbors_for_index_maps_edges {V} `{EqDecision V} {E}
    `{EdgeLawful E} (G : Graph V E) (i : Z) :
  graph_inv G →
  (0 ≤ i < vertex_count G)%Z →
  ∃ es ns,
    _edges G !! Z.to_nat i = Some es ∧
    neighbors_for_index G i = Ok ns ∧
    length ns = length es ∧
    (∀ k e, es !! k = Some e →
            ∃ x, ns !! k = Some x ∧ vertex_at G (edge_v e) = Ok x) ∧
    (∀ e G', add_edge e G = (Ok tt, G') →
             ∃ new, neighbors_for_index G' i = Ok (ns ++ new)).
Proof.
  intros Hinv Hi. pose proof Hinv as [Hlen _]. unfold vertex_count in Hi.
  destruct (neighbors_for_index_total G i Hinv) as (es & ns & Hes & Hns).
  { unfold in_range. lia. }
  exists es, ns.
  pose proof Hns as (es' & Hes' & Hall)%neighbors_for_index_Ok.
  assert (es' = es) as -> by congruence.
  split_and!; [|done| | |].
  - unfold edges_for_index in Hes. apply getitem_nonneg in Hes; [done|lia].
  - symmetry. by eapply Forall2_length.
  - intros k e Hk. by eapply Forall2_lookup_l in Hall.
  - intros e G' Hadd.
    pose proof Hadd as (ku & kv & Hu & Hv & _)%add_edge_Ok.
    destruct (vertex_at_in_range G (edge_u e)) as [xu Hxu].
    { rewrite <-Hlen. apply norm_index_in_range. eauto. }
    destruct (vertex_at_in_range G (edge_v e)) as [xv Hxv].
    { rewrite <-Hlen. apply norm_index_in_range. eauto. }
    replace G' with (add_edge e G).2 by by rewrite Hadd.
    eexists. eapply neighbors_for_index_add_edge; [done..| |done|done|done].
    apply norm_index_nonneg. lia.
Qed.

(** Vertex A (position 0) with edges to C and then to B: the neighbours
    come out as C, B. *)
Lemma neighbors_for_index_maps_edges_witness :
  let G : Graph string Edge :=
    mkGraph ["A"; "B"; "C"]
      [[Edge.mkEdge 0 2; Edge.mkEdge 0 1]; [Edge.mkEdge 1 0];
       [Edge.mkEdge 2 0]] in
  ∃ es ns,
    _edges G !! Z.to_nat 0 = Some es ∧
    neighbors_for_index G 0 = Ok ns ∧
    length ns = length es ∧
    (∀ k e, es !! k = Some e →
            ∃ x, ns !! k = Some x ∧ vertex_at G (edge_v e) = Ok x) ∧
    (∀ e G', add_edge e G = (Ok tt, G') →
             ∃ new, neighbors_for_index G' 0 = Ok (ns ++ new)).
Proof.
  intros G. apply (neighbors_for_index_maps_edges G 0).
  - compute_done.
  - vm_compute. split; congruence.
Defined.

(** C10.  On a graph satisfying the class invariant and for
    [0 <= u < vertex_count], [add_edge_by_indices(u, u)] returns and appends
    [Edge(u, u)] twice (the edge and its reversal) to the adjacency list of
    [u]; [edge_count] grows by two and [neighbors_for_index(u)] gains two
    occurrences of the vertex at [u]. *)
Theorem add_edge_by_indices_self_loop {V} `{EqDecision V}
    (G : Graph V Edge) (u : Z) :
  graph_inv G →
  (0 ≤ u < vertex_count G)%Z →
  ∃ G' x es ns,
    add_edge_by_indices u u G = (Ok tt, G') ∧
    vertex_at G u = Ok x ∧
    edges_for_index G u = Ok es ∧
    neighbors_for_index G u = Ok ns ∧
    edges_for_index G' u = Ok (es ++ [Edge.mkEdge u u; Edge.mkEdge u u]) ∧
    Edge.reversed (Edge.mkEdge u u) = Edge.mkEdge u u ∧
    edge_count G' = (edge_count G + 2)%Z ∧
    neighbors_for_index G' u = Ok (ns ++ [x; x]).
Proof.
  intros Hinv Hu.
  destruct (add_edge_valid G (Edge.mkEdge u u) Hinv Hu Hu)
    as (G' & xu & xv & Hadd & Hvs & Hinv' & Hxu & Hxv & Hcount & Hall).
  simpl in *. assert (xv = xu) as -> by congruence.
  destruct (Hall u Hu) as (es & ns & Hes & Hns & Hes' & Hns').
  destruct (decide (u = u)); [|done].
  by exists G', xu, es, ns.
Qed.

(** A loop on B (position 1) of a graph that already has the edge A-B. *)
Lemma add_edge_by_indices_self_loop_witness :
  let G : Graph string Edge :=
    mkGraph ["A"; "B"] [[Edge.mkEdge 0 1]; [Edge.mkEdge 1 0]] in
  ∃ G' x es ns,
    add_edge_by_indices 1 1 G = (Ok tt, G') ∧
    vertex_at G 1 = Ok x ∧
    edges_for_index G 1 = Ok es ∧
    neighbors_for_index G 1 = Ok ns ∧
    edges_for_index G' 1 = Ok (es ++ [Edge.mkEdge 1 1; Edge.mkEdge 1 1]) ∧
    Edge.reversed (Edge.mkEdge 1 1) = Edge.mkEdge 1 1 ∧
    edge_count G' = (edge_count G + 2)%Z ∧
    neighbors_for_index G' 1 = Ok (ns ++ [x; x]).
Proof.
  intros G. apply (add_edge_by_indices_self_loop G 1).
  - compute_done.
  - vm_compute. split; congruence.
Defined.

(** ** [add_edge] with a subscript that does not resolve *)




(** ** The weighted graph *)

Section weighted.
Context {V : Type} `{EqDecision V} {W : Type}.
Implicit Types (G : WeightedGraph.WeightedGraph V W) (e : WeightedEdge W).

Lemma neighbors_for_index_with_weights_Ok G i ps :
  WeightedGraph.neighbors_for_index_with_weights G i = Ok ps ↔
  ∃ es, edges_for_index G i = Ok es ∧
        Forall2 (λ e p, vertex_at G (WeightedEdge.v e) = Ok p.1 ∧
                        WeightedEdge.weight e = p.2) es ps.
Proof.
  unfold WeightedGraph.neighbors_for_index_with_weights.
  destruct (edges_for_index G i) as [es|err]; simpl; [|naive_solver].
  rewrite mapM_result_Ok. split.
  - intros Hall. exists es. split; [done|].
    eapply Forall2_impl; [done|]. intros e [x w]; simpl.
    destruct (vertex_at G (WeightedEdge.v e)); simpl; [|done].
    by intros [= -> ->].
  - intros (? & [= <-] & Hall).
    eapply Forall2_impl; [done|]. intros e [x w]; simpl.
    by intros [-> ->].
Qed.

Lemma neighbors_for_index_with_weights_total G i :
  graph_inv G → in_range (length (_vertices G)) i →
  ∃ ps, WeightedGraph.neighbors_for_index_with_weights G i = Ok ps.
Proof.
  intros Hinv Hi.
  destruct (neighbors_for_index_total G i Hinv Hi) as (es & ns & Hes & Hns).
  apply neighbors_for_index_Ok in Hns as (es' & Hes' & Hall).
  assert (es' = es) as -> by congruence.
  exists (zip ns (WeightedEdge.weight <$> es)).
  apply neighbors_for_index_with_weights_Ok. exists es. split; [done|].
  clear -Hall. induction Hall; simpl; constructor; auto.
Qed.

Lemma neighbors_for_index_with_weights_add_edge G e i ku kv k ps xu xv :
  PyList.norm_index (length (_edges G)) (edge_u e) = Some ku →
  PyList.norm_index (length (_edges G)) (edge_v e) = Some kv →
  PyList.norm_index (length (_edges G)) i = Some k →
  vertex_at G (edge_u e) = Ok xu →
  vertex_at G (edge_v e) = Ok xv →
  WeightedGraph.neighbors_for_index_with_weights G i = Ok ps →
  WeightedGraph.neighbors_for_index_with_weights (add_edge e G).2 i =
  Ok (ps ++ (if decide (k = ku) then [(xv, WeightedEdge.weight e)] else [])
         ++ (if decide (k = kv) then [(xu, WeightedEdge.weight e)] else [])).
Proof.
  intros Hu Hv Hi Hxu Hxv (es & Hes & Hps)%neighbors_for_index_with_weights_Ok.
  apply neighbors_for_index_with_weights_Ok. eexists. split.
  { by eapply edges_for_index_add_edge. }
  apply Forall2_app; [|apply Forall2_app].
  - eapply Forall2_impl; [done|]. intros e' p' Hp'.
    by rewrite vertex_at_add_edge.
  - case_decide; repeat constructor. by rewrite vertex_at_add_edge.
  - case_decide; repeat constructor. by rewrite vertex_at_add_edge.
Qed.

End weighted.

(** C4.  On a weighted graph satisfying the class invariant, with [u] and
    [v] in [0, vertex_count), [add_edge_by_indices(u, v, w)] returns;
    afterwards [neighbors_for_index_with_weights(u)] is the former list
    followed by [(vertex_at(v), w)] (and by the mirrored pair too when
    [u = v]), and symmetrically at [v] with [(vertex_at(u), w)]: both new
    pairs carry the weight [w] that was passed in. *)
Theorem weighted_add_edge_mirrors_weight {V} `{EqDecision V} {W}
    (G : WeightedGraph.WeightedGraph V W) (u v : Z) (w : W) :
  graph_inv G →
  (0 ≤ u < vertex_count G)%Z →
  (0 ≤ v < vertex_count G)%Z →
  ∃ G' xu xv pu pv,
    WeightedGraph.add_edge_by_indices u v w G = (Ok tt, G') ∧
    vertex_at G' u = Ok xu ∧ vertex_at G' v = Ok xv ∧
    WeightedGraph.neighbors_for_index_with_weights G u = Ok pu ∧
    WeightedGraph.neighbors_for_index_with_weights G v = Ok pv ∧
    WeightedGraph.neighbors_for_index_with_weights G' u =
      Ok (pu ++ [(xv, w)] ++ (if decide (u = v) then [(xu, w)] else [])) ∧
    WeightedGraph.neighbors_for_index_with_weights G' v =
      Ok (pv ++ (if decide (v = u) then [(xv, w)] else []) ++ [(xu, w)]) ∧
    (∃ pu', WeightedGraph.neighbors_for_index_with_weights G' u = Ok pu' ∧
            (xv, w) ∈ pu') ∧
    (∃ pv', WeightedGraph.neighbors_for_index_with_weights G' v = Ok pv' ∧
            (xu, w) ∈ pv').
Proof.
  intros Hinv Hu Hv. pose proof Hinv as [Hlen _].
  set (e := WeightedEdge.mkWeightedEdge u v w).
  destruct (add_edge_valid G e Hinv Hu Hv)
    as (G' & xu & xv & Hadd & Hvs & _ & Hxu & Hxv & _ & _).
  unfold vertex_count in Hu, Hv.
  destruct (neighbors_for_index_with_weights_total G u Hinv) as [pu Hpu].
  { unfold in_range. lia. }
  destruct (neighbors_for_index_with_weights_total G v Hinv) as [pv Hpv].
  { unfold in_range. lia. }
  rewrite <-Hlen in Hu, Hv.
  pose proof (norm_index_nonneg _ _ Hu) as Hku.
  pose proof (norm_index_nonneg _ _ Hv) as Hkv.
  pose proof (neighbors_for_index_with_weights_add_edge G e u _ _ _ pu xu xv
                Hku Hkv Hku Hxu Hxv Hpu) as Hpu'.
  pose proof (neighbors_for_index_with_weights_add_edge G e v _ _ _ pv xu xv
                Hku Hkv Hkv Hxu Hxv Hpv) as Hpv'.
  rewrite Hadd in Hpu', Hpv'. simpl in Hpu', Hpv', Hxu, Hxv.
  rewrite decide_True in Hpu' by done.
  rewrite (decide_True (P:=Z.to_nat v = Z.to_nat v)) in Hpv' by done.
  assert (∀ a b : Z, (0 ≤ a)%Z → (0 ≤ b)%Z → ∀ l : list (V * W),
            (if decide (Z.to_nat a = Z.to_nat b) then l else []) =
            (if decide (a = b) then l else [])) as Hdec.
  { intros a b Ha Hb l. repeat case_decide; first [done | lia]. }
  rewrite Hdec in Hpu', Hpv' by lia.
  exists G', xu, xv, pu, pv. split_and!; try done.
  - unfold vertex_at in *. by rewrite Hvs.
  - unfold vertex_at in *. by rewrite Hvs.
  - eexists. split; [done|]. rewrite !elem_of_app. right. left.
    apply list_elem_of_here.
  - eexists. split; [done|]. rewrite !elem_of_app. right. right.
    apply list_elem_of_here.
Qed.

(** The weighted example of the specification: X-Y with weight 5. *)
Lemma weighted_add_edge_mirrors_weight_witness :
  let G : WeightedGraph.WeightedGraph string nat :=
    WeightedGraph.__init__ ["X"; "Y"] in
  ∃ G' xu xv pu pv,
    WeightedGraph.add_edge_by_indices 0 1 5 G = (Ok tt, G') ∧
    vertex_at G' 0 = Ok xu ∧ vertex_at G' 1 = Ok xv ∧
    WeightedGraph.neighbors_for_index_with_weights G 0 = Ok pu ∧
    WeightedGraph.neighbors_for_index_with_weights G 1 = Ok pv ∧
    WeightedGraph.neighbors_for_index_with_weights G' 0 =
      Ok (pu ++ [(xv, 5)] ++ (if decide (0 = 1)%Z then [(xu, 5)] else [])) ∧
    WeightedGraph.neighbors_for_index_with_weights G' 1 =
      Ok (pv ++ (if decide (1 = 0)%Z then [(xv, 5)] else []) ++ [(xu, 5)]) ∧
    (∃ pu', WeightedGraph.neighbors_for_index_with_weights G' 0 = Ok pu' ∧
            (xv, 5) ∈ pu') ∧
    (∃ pv', WeightedGraph.neighbors_for_index_with_weights G' 1 = Ok pv' ∧
            (xu, 5) ∈ pv').
Proof.
  intros G. apply (weighted_add_edge_mirrors_weight G 0 1 5).
  - compute_done.
  - vm_compute. split; congruence.
  - vm_compute. split; congruence.
Defined.

(** ** Further properties of [graph.py] *)

Lemma mapM_result_Raise {A B} (f : A → result B) l err :
  mapM f l = Raise err → ∃ x, x ∈ l ∧ f x = Raise err.
Proof.
  induction l as [|x l IH]; simpl; [done|].
  destruct (f x) as [y|e] eqn:Hfx; simpl.
  - destruct (mapM f l) as [k|e]; simpl; [done|].
    intros [= ->]. destruct IH as (x' & Hx' & Hfx'); [done|].
    exists x'. split; [by apply list_elem_of_further|done].
  - intros [= ->]. exists x. split; [apply list_elem_of_here|done].
Qed.

Lemma neighbors_for_index_Raise {V E} `{EdgeLike E} (G : Graph V E) i err :
  neighbors_for_index G i = Raise err → err = IndexError.
Proof.
  unfold neighbors_for_index.
  destruct (PyList.getitem (_edges G) i) as [es|e] eqn:Hes; simpl.
  - intros (x & _ & Hx)%mapM_result_Raise.
    by apply getitem_Raise in Hx as [-> _].
  - intros [= <-]. by apply getitem_Raise in Hes as [-> _].
Qed.

(** X1.  A graph fresh from the constructor satisfies the class invariant,
    has as many vertices as it was given and no edge, and every subscript
    that resolves, counted from the front or from the end, has an empty
    adjacency list and no neighbours. *)
Theorem init_empty_adjacency {V E} `{EdgeLike E} (vertices : list V) (i : Z) :
  graph_inv (__init__ (E:=E) vertices) ∧
  vertex_count (__init__ (E:=E) vertices) = Z.of_nat (length vertices) ∧
  edge_count (__init__ (E:=E) vertices) = 0%Z ∧
  (in_range (length vertices) i →
   edges_for_index (__init__ (E:=E) vertices) i = Ok [] ∧
   neighbors_for_index (__init__ (E:=E) vertices) i = Ok []) ∧
  (¬ in_range (length vertices) i →
   edges_for_index (__init__ (E:=E) vertices) i = Raise IndexError ∧
   neighbors_for_index (__init__ (E:=E) vertices) i = Raise IndexError).
Proof.
  assert (∀ k es, (map (λ _ : V, @nil E) vertices) !! k = Some es → es = [])
    as Hnil.
  { intros k es. rewrite list_lookup_fmap.
    destruct (vertices !! k); simpl; congruence. }
  split_and!.
  - split; simpl; [by rewrite length_map|].
    apply Forall_forall. intros es [k Hk]%list_elem_of_lookup_1.
    apply Hnil in Hk as ->. constructor.
  - done.
  - unfold edge_count, __init__. simpl.
    induction vertices as [|x vs IH]; simpl; [done|]. apply IH.
    intros k es Hk. by apply (Hnil (S k)).
  - intros Hi.
    assert (edges_for_index (__init__ (E:=E) vertices) i = Ok []) as Hes.
    { destruct (getitem_in_range (map (λ _ : V, @nil E) vertices) i)
        as [es Hes]; [by rewrite length_map|].
      unfold edges_for_index, __init__. simpl. rewrite Hes.
      apply getitem_Ok in Hes as (k & _ & Hk). by apply Hnil in Hk as ->. }
    split; [done|]. unfold neighbors_for_index.
    unfold edges_for_index in Hes. by rewrite Hes.
  - intros Hi.
    assert (edges_for_index (__init__ (E:=E) vertices) i = Raise IndexError)
      as Hes.
    { apply getitem_Raise. split; [done|]. simpl. rewrite length_map.
      unfold in_range in Hi. lia. }
    split; [done|]. unfold neighbors_for_index.
    unfold edges_for_index in Hes. by rewrite Hes.
Qed.

(** The last of three vertices, addressed as [-1], and the subscript [3]. *)
Lemma init_empty_adjacency_witness :
  neighbors_for_index (__init__ (E:=Edge) ["A"; "B"; "C"]) (-1) = Ok [] ∧
  neighbors_for_index (__init__ (E:=Edge) ["A"; "B"; "C"]) 3
    = Raise IndexError.
Proof.
  split.
  - apply (init_empty_adjacency ["A"; "B"; "C"] (-1)). compute_done.
  - apply (init_empty_adjacency ["A"; "B"; "C"] 3). compute_done.
Defined.

(** X2.  [index_of] is a right inverse of [vertex_at]: whenever
    [index_of(x)] returns [i], that [i] lies in [0, vertex_count) and
    [vertex_at(i)] is [x], duplicates or not. *)
Theorem vertex_at_index_of {V E} `{EqDecision V} (G : Graph V E) (x : V)
    (i : Z) :
  index_of G x = Ok i →
  (0 ≤ i < vertex_count G)%Z ∧ vertex_at G i = Ok x.
Proof.
  intros (k & -> & Hk & _)%index_Ok. unfold vertex_count, vertex_at.
  pose proof (lookup_lt_Some _ _ _ Hk). split; [lia|].
  apply getitem_nonneg; [lia|]. by rewrite Nat2Z.id.
Qed.

(** The second "B" is never reported: the first one is at position 1. *)
Lemma vertex_at_index_of_witness :
  let G : Graph string Edge := __init__ ["A"; "B"; "B"] in
  (0 ≤ 1 < vertex_count G)%Z ∧ vertex_at G 1 = Ok "B".
Proof. intros G. apply (vertex_at_index_of G "B" 1). reflexivity. Defined.

(** X3.  After [add_vertex(x)], every value that was a vertex is still found
    at the position it had; [x] itself is found at the returned position
    exactly when it was not a vertex before, and at its earlier position
    otherwise. *)
Theorem add_vertex_index_of {V E} `{EqDecision V} (G : Graph V E) (x y : V) :
  (y ∈ _vertices G → index_of (add_vertex x G).2 y = index_of G y) ∧
  (x ∉ _vertices G →
   (add_vertex x G).1 = Ok (vertex_count G) ∧
   index_of (add_vertex x G).2 x = Ok (vertex_count G)).
Proof.
  rewrite add_vertex_unfold. unfold index_of, vertex_count. simpl. split.
  - intros Hy. destruct (index_elem_of _ _ Hy) as [i Hi]. rewrite Hi.
    apply index_Ok in Hi as (k & -> & Hk & Hfirst).
    apply index_Ok. exists k. split_and!; [done| |].
    + rewrite lookup_app_l; [done|]. by eapply lookup_lt_Some.
    + intros j Hj. rewrite lookup_app_l; [by apply Hfirst|].
      apply lookup_lt_Some in Hk. lia.
  - intros Hx. split; [done|]. apply index_Ok.
    exists (length (_vertices G)). split_and!; [done| |].
    + by apply list_lookup_middle.
    + intros j Hj. rewrite lookup_app_l by done.
      intros Hjx%list_elem_of_lookup_2. done.
Qed.

(** A new value gets the new position; a repeated one keeps reporting its
    first position. *)
Lemma add_vertex_index_of_witness :
  let G : Graph string Edge := __init__ ["A"; "B"] in
  index_of (add_vertex "C" G).2 "C" = Ok 2%Z ∧
  index_of (add_vertex "A" G).2 "A" = Ok 0%Z.
Proof.
  intros G. split.
  - apply (add_vertex_index_of G "C" "C"). compute_done.
  - change (Ok 0%Z) with (index_of G "A").
    apply (add_vertex_index_of G "A" "A"). compute_done.
Defined.

Lemma getitem_app_l {A} (l l' : list A) i :
  (0 ≤ i < Z.of_nat (length l))%Z →
  PyList.getitem (l ++ l') i = PyList.getitem l i.
Proof.
  intros Hi. unfold PyList.getitem.
  rewrite !norm_index_nonneg by (rewrite ?length_app; lia).
  rewrite lookup_app_l by lia. done.
Qed.

Lemma mapM_result_ext {A B} (f g : A → result B) l :
  Forall (λ x, f x = g x) l → mapM f l = mapM g l.
Proof.
  induction 1 as [|x l Hx _ IH]; simpl; [done|]. by rewrite Hx, IH.
Qed.

(** X4.  On any graph, [add_vertex] adds no edge, [vertex_at(-1)] afterwards
    is the new vertex, every position counted from the front keeps its
    vertex and every such subscript of the adjacency sequence keeps its
    list.  When the two sequences were equally long the new position has no
    neighbours.  On a graph satisfying the class invariant, with or without
    vertices, [add_vertex] keeps the invariant, and a position counted from
    the front keeps its neighbours when the edges stored there end at
    positions counted from the front. *)
Theorem add_vertex_frame {V E} `{EdgeLike E} (G : Graph V E) (x : V) :
  edge_count (add_vertex x G).2 = edge_count G ∧
  vertex_at (add_vertex x G).2 (-1) = Ok x ∧
  (∀ i, (0 ≤ i < vertex_count G)%Z →
        vertex_at (add_vertex x G).2 i = vertex_at G i) ∧
  (∀ i, (0 ≤ i < Z.of_nat (length (_edges G)))%Z →
        edges_for_index (add_vertex x G).2 i = edges_for_index G i) ∧
  (length (_edges G) = length (_vertices G) →
   edges_for_index (add_vertex x G).2 (vertex_count G) = Ok [] ∧
   neighbors_for_index (add_vertex x G).2 (vertex_count G) = Ok []) ∧
  (graph_inv G →
   graph_inv (add_vertex x G).2 ∧
   ∀ i es, (0 ≤ i < vertex_count G)%Z →
           edges_for_index G i = Ok es →
           Forall (λ e, (0 ≤ edge_v e)%Z) es →
           neighbors_for_index (add_vertex x G).2 i = neighbors_for_index G i).
Proof.
  unfold vertex_count. split_and!.
  - rewrite add_vertex_unfold. unfold edge_count. simpl.
    rewrite fmap_app, sum_list_with_app. simpl. by rewrite Nat.add_0_r.
  - rewrite add_vertex_unfold. unfold vertex_at. simpl.
    apply getitem_Ok. exists (length (_vertices G)). split.
    + apply norm_index_Some. right. rewrite length_app. simpl. lia.
    + by apply list_lookup_middle.
  - intros i Hi. rewrite add_vertex_unfold. unfold vertex_at. simpl.
    by apply getitem_app_l.
  - intros i Hi. rewrite add_vertex_unfold. unfold edges_for_index. simpl.
    by apply getitem_app_l.
  - intros Hlen. rewrite add_vertex_unfold.
    unfold neighbors_for_index, edges_for_index. simpl.
    assert (PyList.getitem (_edges G ++ [[]])
              (Z.of_nat (length (_vertices G))) = Ok []) as ->; [|done].
    apply getitem_nonneg; [lia|]. rewrite Nat2Z.id, <-Hlen.
    by apply list_lookup_middle.
  - intros [Hlen Hes]. split.
    + rewrite add_vertex_unfold. split; simpl.
      * rewrite !length_app. simpl. lia.
      * apply Forall_app. split; [|by apply Forall_singleton].
        eapply Forall_impl; [done|]. intros l Hl.
        eapply Forall_impl; [done|]. unfold in_range. intros e.
        rewrite length_app. simpl. lia.
    + intros i es Hi Hget Hnonneg. rewrite add_vertex_unfold.
      unfold neighbors_for_index, edges_for_index in *. simpl.
      rewrite getitem_app_l, Hget by lia. simpl.
      apply mapM_result_ext, Forall_fmap.
      apply getitem_Ok in Hget as (k & _ & Hk).
      eapply Forall_lookup_1 in Hes; [|done].
      eapply Forall_impl;
        [apply Forall_and; split; [exact Hes|exact Hnonneg]|].
      intros e [Hin Hge]. simpl. unfold vertex_at. simpl.
      apply getitem_app_l. unfold in_range in Hin. lia.
Qed.

(** The first vertex of a graph without vertices, and C added to the graph
    A-B. *)
Lemma add_vertex_frame_witness :
  (let G : Graph string Edge := __init__ [] in
   graph_inv (add_vertex "A" G).2 ∧
   edges_for_index (add_vertex "A" G).2 0 = Ok [] ∧
   neighbors_for_index (add_vertex "A" G).2 0 = Ok []) ∧
  (let G : Graph string Edge :=
     mkGraph ["A"; "B"] [[Edge.mkEdge 0 1]; [Edge.mkEdge 1 0]] in
   vertex_at (add_vertex "C" G).2 1 = vertex_at G 1 ∧
   edges_for_index (add_vertex "C" G).2 1 = edges_for_index G 1 ∧
   neighbors_for_index (add_vertex "C" G).2 0 = neighbors_for_index G 0 ∧
   neighbors_for_index (add_vertex "C" G).2 2 = Ok []).
Proof.
  split; intros G.
  - destruct (add_vertex_frame G "A") as (_ & _ & _ & _ & Hnew & Hinv).
    destruct Hnew as [Hes Hns]; [reflexivity|].
    destruct Hinv as [Hinv _]; [compute_done|]. done.
  - destruct (add_vertex_frame G "C") as (_ & _ & Hat & Hes & Hnew & Hinv).
    destruct Hnew as [_ Hns]; [reflexivity|].
    destruct Hinv as [_ Hkeep]; [compute_done|].
    split_and!.
    + apply Hat. vm_compute. split; congruence.
    + apply Hes. vm_compute. split; congruence.
    + apply (Hkeep 0%Z [Edge.mkEdge 0 1]);
        [vm_compute; split; congruence|reflexivity|].
      apply Forall_singleton. vm_compute. congruence.
    + exact Hns.
Defined.

Lemma getitem_negative {A} (l : list A) i :
  (- Z.of_nat (length l) ≤ i < 0)%Z →
  PyList.getitem l i = PyList.getitem l (i + Z.of_nat (length l)).
Proof.
  intros Hi. unfold PyList.getitem.
  assert (PyList.norm_index (length l) i
            = Some (Z.to_nat (i + Z.of_nat (length l)))) as ->.
  { apply norm_index_Some. by right. }
  by rewrite norm_index_nonneg by lia.
Qed.

(** X5.  The adjacency queries take subscripts the way lists do: with [n]
    adjacency lists, a subscript in [-n, 0) reads the same list as that
    subscript plus [n], every subscript in [-n, n) has an adjacency list,
    and the others raise [IndexError] from both queries. *)
Theorem adjacency_subscript {V E} `{EdgeLike E} (G : Graph V E) (i : Z) :
  ((- Z.of_nat (length (_edges G)) ≤ i < 0)%Z →
   edges_for_index G i = edges_for_index G (i + Z.of_nat (length (_edges G)))
   ∧ neighbors_for_index G i =
     neighbors_for_index G (i + Z.of_nat (length (_edges G)))) ∧
  (in_range (length (_edges G)) i → ∃ es, edges_for_index G i = Ok es) ∧
  (¬ in_range (length (_edges G)) i →
   edges_for_index G i = Raise IndexError ∧
   neighbors_for_index G i = Raise IndexError).
Proof.
  unfold edges_for_index, neighbors_for_index. split_and!.
  - intros Hi. by rewrite <-getitem_negative.
  - apply getitem_in_range.
  - intros Hi.
    assert (PyList.getitem (_edges G) i = Raise IndexError) as ->; [|done].
    apply getitem_Raise. unfold in_range in Hi. split; [done|lia].
Qed.

(** In the graph A-B, [-1] reads the adjacency list of B, and [2] raises. *)
Lemma adjacency_subscript_witness :
  let G : Graph string Edge :=
    mkGraph ["A"; "B"] [[Edge.mkEdge 0 1]; [Edge.mkEdge 1 0]] in
  neighbors_for_index G (-1) = neighbors_for_index G 1 ∧
  neighbors_for_index G 2 = Raise IndexError.
Proof.
  intros G. destruct (adjacency_subscript G (-1)) as (Hneg & _ & _).
  destruct (adjacency_subscript G 2) as (_ & _ & Hout).
  split.
  - apply Hneg. vm_compute. split; congruence.
  - apply Hout. compute_done.
Defined.

(** X6.  An [add_edge] that returns, whatever the signs of the edge's
    endpoints, keeps the class invariant, the vertices and the number of
    adjacency lists, and every subscript still resolves to the vertex it
    resolved to. *)
Theorem add_edge_keeps_invariant {V E} `{EdgeLawful E} (G G' : Graph V E)
    (e : E) :
  graph_inv G →
  add_edge e G = (Ok tt, G') →
  graph_inv G' ∧
  _vertices G' = _vertices G ∧
  length (_edges G') = length (_edges G) ∧
  ∀ i, vertex_at G' i = vertex_at G i.
Proof.
  intros Hinv Hadd. split_and!.
  - by eapply graph_inv_add_edge.
  - by apply add_edge_Ok in Hadd as (? & ? & _ & _ & ->).
  - apply add_edge_Ok in Hadd as (? & ? & _ & _ & ->). simpl.
    by rewrite !length_alter.
  - intros i. replace G' with (add_edge e G).2 by by rewrite Hadd.
    apply vertex_at_add_edge.
Qed.

(** An edge given from the end: last vertex to first vertex. *)
Lemma add_edge_keeps_invariant_witness :
  let G : Graph string Edge := __init__ ["A"; "B"; "C"] in
  let G' := mkGraph ["A"; "B"; "C"]
              [[Edge.mkEdge 0 (-1)]; []; [Edge.mkEdge (-1) 0]] in
  graph_inv G' ∧
  _vertices G' = _vertices G ∧
  length (_edges G') = length (_edges G) ∧
  ∀ i, vertex_at G' i = vertex_at G i.
Proof.
  intros G G'. apply (add_edge_keeps_invariant G G' (Edge.mkEdge (-1) 0)).
  - compute_done.
  - reflexivity.
Defined.

(** X7.  [neighbors_for_vertex(x)] raises [ValueError] exactly when [x] is
    not a vertex; on a graph satisfying the class invariant it returns for
    every vertex, and what it returns are the neighbours of the first
    position holding [x]. *)
Theorem neighbors_for_vertex_lookup {V E} `{EqDecision V} `{EdgeLike E}
    (G : Graph V E) (x : V) :
  (neighbors_for_vertex G x = Raise ValueError ↔ x ∉ _vertices G) ∧
  (graph_inv G → x ∈ _vertices G →
   ∃ i ns, index_of G x = Ok i ∧ vertex_at G i = Ok x ∧
           neighbors_for_index G i = Ok ns ∧
           neighbors_for_vertex G x = Ok ns).
Proof.
  unfold neighbors_for_vertex. split.
  - destruct (index_of G x) as [i|e] eqn:Hi; simpl.
    + apply index_Ok in Hi as (k & _ & Hk%list_elem_of_lookup_2 & _). split.
      * by intros ?%neighbors_for_index_Raise.
      * done.
    + apply index_Raise in Hi as [-> Hx]. done.
  - intros Hinv Hx. destruct (index_elem_of _ _ Hx) as [i Hi].
    unfold index_of. rewrite Hi. simpl.
    pose proof Hi as (k & -> & Hk & _)%index_Ok.
    apply lookup_lt_Some in Hk as Hlt.
    destruct (neighbors_for_index_total G (Z.of_nat k) Hinv)
      as (es & ns & _ & Hns); [unfold in_range; lia|].
    exists (Z.of_nat k), ns. split_and!; try done.
    apply getitem_nonneg; [lia|]. by rewrite Nat2Z.id.
Qed.

(** The three-vertex example: B lists A, and an unknown name raises. *)
Lemma neighbors_for_vertex_lookup_witness :
  let G : Graph string Edge :=
    mkGraph ["A"; "B"; "C"] [[Edge.mkEdge 0 1]; [Edge.mkEdge 1 0]; []] in
  (∃ i ns, index_of G "B" = Ok i ∧ vertex_at G i = Ok "B" ∧
           neighbors_for_index G i = Ok ns ∧
           neighbors_for_vertex G "B" = Ok ns) ∧
  neighbors_for_vertex G "Z" = Raise ValueError.
Proof.
  intros G. destruct (neighbors_for_vertex_lookup G "B") as [_ Hin].
  destruct (neighbors_for_vertex_lookup G "Z") as [Hout _].
  split.
  - apply Hin; compute_done.
  - apply Hout. compute_done.
Defined.

(** X8.  [edges_for_vertex(x)] raises [ValueError] exactly when [x] is not a
    vertex; when the two sequences are equally long it returns, for every
    vertex, the adjacency list of the first position holding [x]. *)
Theorem edges_for_vertex_lookup {V E} `{EqDecision V} `{EdgeLike E}
    (G : Graph V E) (x : V) :
  (edges_for_vertex G x = Raise ValueError ↔ x ∉ _vertices G) ∧
  (length (_edges G) = length (_vertices G) → x ∈ _vertices G →
   ∃ k es, index_of G x = Ok (Z.of_nat k) ∧
           _edges G !! k = Some es ∧
           edges_for_vertex G x = Ok es).
Proof.
  unfold edges_for_vertex. split.
  - destruct (index_of G x) as [i|e] eqn:Hi; simpl.
    + apply index_Ok in Hi as (k & _ & Hk%list_elem_of_lookup_2 & _). split.
      * unfold edges_for_index. by intros [[=] _]%getitem_Raise.
      * done.
    + apply index_Raise in Hi as [-> Hx]. done.
  - intros Hlen Hx. destruct (index_elem_of _ _ Hx) as [i Hi].
    unfold index_of. rewrite Hi. simpl.
    pose proof Hi as (k & -> & Hk & _)%index_Ok.
    apply lookup_lt_Some in Hk as Hlt.
    destruct (lookup_lt_is_Some_2 (_edges G) k) as [es Hes]; [lia|].
    exists k, es. split_and!; try done.
    apply getitem_nonneg; [lia|]. by rewrite Nat2Z.id.
Qed.

(** The edges stored for B, and an unknown name. *)
Lemma edges_for_vertex_lookup_witness :
  let G : Graph string Edge :=
    mkGraph ["A"; "B"; "C"] [[Edge.mkEdge 0 1]; [Edge.mkEdge 1 0]; []] in
  (∃ k es, index_of G "B" = Ok (Z.of_nat k) ∧
           _edges G !! k = Some es ∧
           edges_for_vertex G "B" = Ok es) ∧
  edges_for_vertex G "Z" = Raise ValueError.
Proof.
  intros G. destruct (edges_for_vertex_lookup G "B") as [_ Hin].
  destruct (edges_for_vertex_lookup G "Z") as [Hout _].
  split.
  - apply Hin; [reflexivity|compute_done].
  - apply Hout. compute_done.
Defined.

Lemma add_edge_by_vertices_unfold {V} `{EqDecision V} (G : Graph V Edge)
    (first second : V) :
  add_edge_by_vertices first second G =
  match index_of G first with
  | Raise err => (Raise err, G)
  | Ok u =>
      match index_of G second with
      | Raise err => (Raise err, G)
      | Ok v => add_edge_by_indices u v G
      end
  end.
Proof.
  unfold add_edge_by_vertices, index_of, mbind, M_bind, query.
  destruct (PyList.index (_vertices G) first); [|done].
  by destruct (PyList.index (_vertices G) second).
Qed.

(** X9.  On a graph satisfying the class invariant,
    [add_edge_by_vertices(first, second)] with both values present returns,
    keeps the invariant and the vertices, and afterwards
    [neighbors_for_vertex(first)] is what it was followed by [second], and
    [neighbors_for_vertex(second)] what it was followed by [first] (for
    [first = second] the value is listed twice). *)
Theorem add_edge_by_vertices_connects {V} `{EqDecision V} (G : Graph V Edge)
    (first second : V) :
  graph_inv G →
  first ∈ _vertices G →
  second ∈ _vertices G →
  ∃ G' nf ns,
    add_edge_by_vertices first second G = (Ok tt, G') ∧
    graph_inv G' ∧
    _vertices G' = _vertices G ∧
    neighbors_for_vertex G first = Ok nf ∧
    neighbors_for_vertex G second = Ok ns ∧
    neighbors_for_vertex G' first =
      Ok (nf ++ [second] ++ (if decide (first = second) then [first] else []))
    ∧
    neighbors_for_vertex G' second =
      Ok (ns ++ (if decide (second = first) then [second] else [])
             ++ [first]).
Proof.
  intros Hinv Hfirst Hsecond.
  destruct (index_elem_of _ _ Hfirst) as [iu Hiu].
  destruct (index_elem_of _ _ Hsecond) as [iv Hiv].
  pose proof Hiu as (ku & -> & Hku & Hfu)%index_Ok.
  pose proof Hiv as (kv & -> & Hkv & Hfv)%index_Ok.
  pose proof (lookup_lt_Some _ _ _ Hku) as Hltu.
  pose proof (lookup_lt_Some _ _ _ Hkv) as Hltv.
  destruct (add_edge_valid G (Edge.mkEdge (Z.of_nat ku) (Z.of_nat kv)) Hinv)
    as (G' & xu & xv & Hadd & Hvs & Hinv' & Hxu & Hxv & _ & Hall);
    [unfold vertex_count; simpl; lia..|].
  simpl in Hxu, Hxv.
  assert (xu = first) as ->.
  { unfold vertex_at in Hxu. apply getitem_nonneg in Hxu; [|lia].
    rewrite Nat2Z.id in Hxu. congruence. }
  assert (xv = second) as ->.
  { unfold vertex_at in Hxv. apply getitem_nonneg in Hxv; [|lia].
    rewrite Nat2Z.id in Hxv. congruence. }
  destruct (Hall (Z.of_nat ku)) as (_ & nf & _ & Hnf & _ & Hnf');
    [unfold vertex_count; lia|].
  destruct (Hall (Z.of_nat kv)) as (_ & ns & _ & Hns & _ & Hns');
    [unfold vertex_count; lia|].
  simpl in Hnf', Hns'.
  assert (ku = kv ↔ first = second) as Hsame.
  { split; [intros ->; congruence|intros ->].
    destruct (Nat.lt_trichotomy ku kv) as [Hlt|[->|Hlt]]; [|done|].
    - by apply Hfv in Hlt.
    - by apply Hfu in Hlt. }
  exists G', nf, ns.
  rewrite add_edge_by_vertices_unfold. unfold index_of.
  unfold neighbors_for_vertex, index_of. rewrite Hvs, Hiu, Hiv. simpl.
  split_and!; try done.
  - rewrite Hnf'. do 3 f_equal; repeat case_decide; try done;
      exfalso; naive_solver lia.
  - rewrite Hns'. do 3 f_equal; repeat case_decide; try done;
      exfalso; naive_solver lia.
Qed.

(** The unweighted example of the specification: A-B among A, B, C. *)
Lemma add_edge_by_vertices_connects_witness :
  let G : Graph string Edge := __init__ ["A"; "B"; "C"] in
  ∃ G' nf ns,
    add_edge_by_vertices "A" "B" G = (Ok tt, G') ∧
    graph_inv G' ∧
    _vertices G' = _vertices G ∧
    neighbors_for_vertex G "A" = Ok nf ∧
    neighbors_for_vertex G "B" = Ok ns ∧
    neighbors_for_vertex G' "A" =
      Ok (nf ++ ["B"] ++ (if decide ("A" = "B") then ["A"] else [])) ∧
    neighbors_for_vertex G' "B" =
      Ok (ns ++ (if decide ("B" = "A") then ["B"] else []) ++ ["A"]).
Proof.
  intros G. apply (add_edge_by_vertices_connects G "A" "B"); compute_done.
Defined.

(** ** Built graphs are undirected *)

Lemma occurrences_app e es es' :
  occurrences e (es ++ es') = occurrences e es + occurrences e es'.
Proof. unfold occurrences. by rewrite filter_app, length_app. Qed.

Lemma occurrences_if (c : Prop) `{Decision c} e e' :
  occurrences e (if decide c then [e'] else []) =
  if decide (c ∧ e' = e) then 1 else 0.
Proof.
  unfold occurrences. destruct (decide c) as [Hc|Hc].
  - rewrite filter_cons, filter_nil.
    destruct (decide (e' = e)) as [->|Hne].
    + by rewrite decide_True.
    + by rewrite decide_False by naive_solver.
  - by rewrite filter_nil, decide_False by naive_solver.
Qed.

Lemma occurrences_pos e es : 0 < occurrences e es ↔ e ∈ es.
Proof.
  unfold occurrences. induction es as [|e' es IH].
  - rewrite filter_nil. simpl. split; [lia|by intros ?%elem_of_nil].
  - rewrite filter_cons, elem_of_cons. destruct (decide (e' = e)) as [->|Hne].
    + simpl. split; [by left|lia].
    + rewrite IH. naive_solver.
Qed.

Lemma occurrences_absent e es : e ∉ es → occurrences e es = 0.
Proof. rewrite <-occurrences_pos. lia. Qed.

Lemma edge_count_add_vertex {V E} `{EdgeLike E} (G : Graph V E) x :
  edge_count (add_vertex x G).2 = edge_count G.
Proof.
  rewrite add_vertex_unfold. unfold edge_count. simpl.
  rewrite fmap_app, sum_list_with_app. simpl. by rewrite Nat.add_0_r.
Qed.

Lemma add_edge_by_vertices_Ok {V} `{EqDecision V} (G G' : Graph V Edge)
    (first second : V) :
  add_edge_by_vertices first second G = (Ok tt, G') →
  ∃ u v, (0 ≤ u < Z.of_nat (length (_vertices G)))%Z ∧
         (0 ≤ v < Z.of_nat (length (_vertices G)))%Z ∧
         add_edge_by_indices u v G = (Ok tt, G').
Proof.
  rewrite add_edge_by_vertices_unfold. unfold index_of.
  destruct (PyList.index _ first) as [u|] eqn:Hu; [|done].
  destruct (PyList.index _ second) as [v|] eqn:Hv; [|done].
  apply index_Ok in Hu as (ku & -> & Hku%lookup_lt_Some & _).
  apply index_Ok in Hv as (kv & -> & Hkv%lookup_lt_Some & _).
  intros Hadd. exists (Z.of_nat ku), (Z.of_nat kv). split_and!; [lia..|done].
Qed.

Section adjacency_wf.
Context {V : Type}.
Implicit Types (G : Graph V Edge).

Lemma adjacency_wf_graph_inv G :
  adjacency_wf G → length (_edges G) = length (_vertices G) → graph_inv G.
Proof.
  intros (Hent & _) Hlen. split; [done|].
  apply Forall_forall. intros es [k Hk]%list_elem_of_lookup_1.
  apply Forall_forall. intros e He.
  destruct (Hent k es e Hk He) as [_ Hv]. unfold in_range. simpl. lia.
Qed.

Lemma adjacency_wf_init (vertices : list V) :
  adjacency_wf (__init__ (E:=Edge) vertices).
Proof.
  assert (∀ k es, (map (λ _ : V, @nil Edge) vertices) !! k = Some es → es = [])
    as Hnil.
  { intros k es. rewrite list_lookup_fmap.
    destruct (vertices !! k); simpl; congruence. }
  split; simpl.
  - intros k es e ->%Hnil ?%elem_of_nil. done.
  - by intros a b es_a es_b ->%Hnil ->%Hnil.
Qed.

Lemma adjacency_wf_vertices_changed G (vertices : list V) :
  adjacency_wf G → adjacency_wf (mkGraph vertices (_edges G)).
Proof. done. Qed.

Lemma adjacency_wf_add_vertex G x :
  adjacency_wf G → adjacency_wf (add_vertex x G).2.
Proof.
  intros (Hent & Hsym). rewrite add_vertex_unfold.
  assert (∀ k es, (_edges G ++ [[]]) !! k = Some es →
            _edges G !! k = Some es ∨ (k = length (_edges G) ∧ es = []))
    as Hcases.
  { intros k es [Hk|[Hge Hk]]%lookup_app_Some; [by left|right].
    apply list_lookup_singleton_Some in Hk as [Hk <-]. split; [lia|done]. }
  split; simpl.
  - intros k es e [Hk|[-> ->]]%Hcases He; [|by apply elem_of_nil in He].
    destruct (Hent k es e Hk He) as [Hu Hv]. rewrite length_app. simpl.
    split; [done|lia].
  - intros a b es_a es_b [Ha|[-> ->]]%Hcases [Hb|[-> ->]]%Hcases.
    + by apply Hsym.
    + rewrite occurrences_absent; [done|]. intros He.
      destruct (Hent a es_a _ Ha He) as [_ Hv]. simpl in Hv. lia.
    + symmetry. rewrite occurrences_absent; [done|]. intros He.
      destruct (Hent b es_b _ Hb He) as [_ Hv]. simpl in Hv. lia.
    + done.
Qed.

(** A returning call with both positions counted from the front: they then
    are positions of adjacency lists, whatever [vertex_count] is. *)
Lemma adjacency_wf_add_edge_by_indices G u v G' :
  adjacency_wf G →
  (0 ≤ u)%Z →
  (0 ≤ v)%Z →
  add_edge_by_indices u v G = (Ok tt, G') →
  adjacency_wf G'.
Proof.
  intros (Hent & Hsym) Hu Hv. unfold add_edge_by_indices.
  intros (ku & kv & Hku & Hkv & ->)%add_edge_Ok. simpl in Hku, Hkv.
  apply norm_index_Some in Hku as [[Hu' ->]|[? _]]; [|lia].
  apply norm_index_Some in Hkv as [[Hv' ->]|[? _]]; [|lia].
  split; simpl.
  - intros k es e. rewrite !length_alter, lookup_alter_snoc2.
    destruct (_edges G !! k) as [es0|] eqn:Hk; [|done]. simpl.
    intros [= <-]. rewrite !elem_of_app. intros [He|[He|He]].
    + by eapply Hent.
    + case_decide; [|by apply elem_of_nil in He].
      apply list_elem_of_singleton in He as ->. simpl. lia.
    + case_decide; [|by apply elem_of_nil in He].
      apply list_elem_of_singleton in He as ->. simpl. lia.
  - intros a b es_a es_b. rewrite !lookup_alter_snoc2.
    destruct (_edges G !! a) as [es_a0|] eqn:Ha; [|done].
    destruct (_edges G !! b) as [es_b0|] eqn:Hb; [|done]. simpl.
    intros [= <-] [= <-]. rewrite !occurrences_app, !occurrences_if.
    rewrite (Hsym a b es_a0 es_b0) by done.
    set (za := Z.of_nat a). set (zb := Z.of_nat b).
    rewrite (decide_ext _ (u = za ∧ v = zb)) by (subst za zb; naive_solver lia).
    rewrite (decide_ext (_ ∧ Edge.mkEdge v u = Edge.mkEdge za zb)
               (v = za ∧ u = zb)) by (subst za zb; naive_solver lia).
    rewrite (decide_ext (_ ∧ Edge.mkEdge u v = Edge.mkEdge zb za)
               (u = zb ∧ v = za)) by (subst za zb; naive_solver lia).
    rewrite (decide_ext (_ ∧ Edge.mkEdge v u = Edge.mkEdge zb za)
               (v = zb ∧ u = za)) by (subst za zb; naive_solver lia).
    repeat case_decide; lia.
Qed.

End adjacency_wf.

Lemma built_wf {V} `{EqDecision V} k (G : Graph V Edge) :
  built k G → adjacency_wf G ∧ edge_count G = (2 * Z.of_nat k)%Z.
Proof.
  induction 1 as [vs|k G vs _ [IHwf IHn]|k G x _ [IHwf IHn]
                 |k G u v G' _ [IHwf IHn] Hu Hv Hadd
                 |k G first second G' _ [IHwf IHn] Hadd].
  - split; [apply adjacency_wf_init|].
    unfold edge_count, __init__. simpl. clear.
    induction vs as [|x vs IH]; simpl; [done|]. apply IH.
  - split; [by apply adjacency_wf_vertices_changed|done].
  - split; [by apply adjacency_wf_add_vertex|].
    by rewrite edge_count_add_vertex.
  - split; [apply (adjacency_wf_add_edge_by_indices G u v G'); [done|lia..|done]|].
    apply edge_count_add_edge in Hadd. lia.
  - apply add_edge_by_vertices_Ok in Hadd as (u & v & Hu & Hv & Hadd).
    split; [apply (adjacency_wf_add_edge_by_indices G u v G'); [done|lia..|done]|].
    apply edge_count_add_edge in Hadd. lia.
Qed.

(** X10.  A built graph is undirected, whatever other holders of its vertex
    list did to that list: for positions [i] and [j] that have an adjacency
    list, the entry [i -> j] occurs in the adjacency list of [i] exactly as
    often as [j -> i] occurs in that of [j]; in particular one is present
    exactly when the other is. *)
Theorem built_undirected {V} `{EqDecision V} k (G : Graph V Edge) (i j : Z) :
  built k G →
  (0 ≤ i < Z.of_nat (length (_edges G)))%Z →
  (0 ≤ j < Z.of_nat (length (_edges G)))%Z →
  ∃ es_i es_j,
    edges_for_index G i = Ok es_i ∧
    edges_for_index G j = Ok es_j ∧
    occurrences (Edge.mkEdge i j) es_i = occurrences (Edge.mkEdge j i) es_j ∧
    (Edge.mkEdge i j ∈ es_i ↔ Edge.mkEdge j i ∈ es_j).
Proof.
  intros [(_ & Hsym) _]%built_wf Hi Hj.
  destruct (lookup_lt_is_Some_2 (_edges G) (Z.to_nat i)) as [es_i Hes_i];
    [lia|].
  destruct (lookup_lt_is_Some_2 (_edges G) (Z.to_nat j)) as [es_j Hes_j];
    [lia|].
  pose proof (Hsym _ _ _ _ Hes_i Hes_j) as Hocc.
  rewrite !Z2Nat.id in Hocc by lia.
  exists es_i, es_j. unfold edges_for_index. split_and!.
  - by apply getitem_nonneg; [lia|].
  - by apply getitem_nonneg; [lia|].
  - done.
  - by rewrite <-!occurrences_pos, Hocc.
Qed.

(** A, B, C with the edges A-B and B-B; another holder of the vertex list
    then appends X to it; then a vertex D through [add_vertex] and the edge
    D-A by position.  Five vertices, four adjacency lists: seen from the
    positions 0 and 3. *)
Lemma built_undirected_witness :
  let G : Graph string Edge :=
    mkGraph ["A"; "B"; "C"; "X"; "D"]
      [[Edge.mkEdge 0 1; Edge.mkEdge 0 3];
       [Edge.mkEdge 1 0; Edge.mkEdge 1 1; Edge.mkEdge 1 1]; [];
       [Edge.mkEdge 3 0]] in
  ∃ es_i es_j,
    edges_for_index G 0 = Ok es_i ∧
    edges_for_index G 3 = Ok es_j ∧
    occurrences (Edge.mkEdge 0 3) es_i = occurrences (Edge.mkEdge 3 0) es_j ∧
    (Edge.mkEdge 0 3 ∈ es_i ↔ Edge.mkEdge 3 0 ∈ es_j).
Proof.
  intros G. apply (built_undirected 3 G 0 3).
  - apply (built_add_edge_by_indices 2
             (mkGraph ["A"; "B"; "C"; "X"; "D"]
                [[Edge.mkEdge 0 1];
                 [Edge.mkEdge 1 0; Edge.mkEdge 1 1; Edge.mkEdge 1 1]; []; []])
             3 0); [|vm_compute; split; congruence..|reflexivity].
    apply (built_add_vertex 2
             (mkGraph ["A"; "B"; "C"; "X"]
                [[Edge.mkEdge 0 1];
                 [Edge.mkEdge 1 0; Edge.mkEdge 1 1; Edge.mkEdge 1 1]; []])
             "D").
    apply (built_vertices_changed 2
             (mkGraph ["A"; "B"; "C"]
                [[Edge.mkEdge 0 1];
                 [Edge.mkEdge 1 0; Edge.mkEdge 1 1; Edge.mkEdge 1 1]; []])
             ["A"; "B"; "C"; "X"]).
    apply (built_add_edge_by_indices 1
             (mkGraph ["A"; "B"; "C"] [[Edge.mkEdge 0 1]; [Edge.mkEdge 1 0]; []])
             1 1); [|vm_compute; split; congruence..|reflexivity].
    apply (built_add_edge_by_indices 0 (__init__ ["A"; "B"; "C"]) 0 1);
      [|vm_compute; split; congruence..|reflexivity].
    apply built_init.
  - vm_compute. split; congruence.
  - vm_compute. split; congruence.
Defined.



(** X12.  In a built graph every position that has an adjacency list
    returns it from [edges_for_index], and every entry of the list at
    position [i] starts at [i] and ends at a position that has an adjacency
    list, whatever other holders of the vertex list did to it.  If the vertex
    sequence is, at the time of the query, as long as the adjacency
    sequence, the class invariant holds: every query by a position in
    [0, vertex_count) returns, and [neighbors_for_vertex] and
    [edges_for_vertex] return for every vertex. *)
Theorem built_queries_return {V} `{EqDecision V} k (G : Graph V Edge) :
  built k G →
  (∀ i, (0 ≤ i < Z.of_nat (length (_edges G)))%Z →
     ∃ es, edges_for_index G i = Ok es ∧
           ∀ e, e ∈ es →
                Edge.u e = i ∧
                (0 ≤ Edge.v e < Z.of_nat (length (_edges G)))%Z) ∧
  (length (_edges G) = length (_vertices G) →
   graph_inv G ∧
   (∀ i, (0 ≤ i < vertex_count G)%Z →
      ∃ x ns, vertex_at G i = Ok x ∧ neighbors_for_index G i = Ok ns) ∧
   (∀ x, x ∈ _vertices G →
      ∃ es ns, edges_for_vertex G x = Ok es ∧
               neighbors_for_vertex G x = Ok ns)).
Proof.
  intros [Hwf _]%built_wf. pose proof Hwf as (Hent & _). split.
  - intros i Hi.
    destruct (lookup_lt_is_Some_2 (_edges G) (Z.to_nat i)) as [es Hes]; [lia|].
    exists es. split.
    + unfold edges_for_index. by apply getitem_nonneg; [lia|].
    + intros e He. destruct (Hent _ _ _ Hes He) as [Hu Hv]. split; [lia|done].
  - intros Hlen. pose proof (adjacency_wf_graph_inv G Hwf Hlen) as Hinv.
    unfold vertex_count.
    assert (∀ i, (0 ≤ i < Z.of_nat (length (_vertices G)))%Z →
              ∃ x es ns, vertex_at G i = Ok x ∧ edges_for_index G i = Ok es ∧
                         neighbors_for_index G i = Ok ns) as Hpos.
    { intros i Hi.
      destruct (vertex_at_in_range G i) as [x Hx]; [unfold in_range; lia|].
      destruct (neighbors_for_index_total G i Hinv) as (es & ns & Hes & Hns);
        [unfold in_range; lia|].
      by exists x, es, ns. }
    split_and!; [done| |].
    + intros i Hi. destruct (Hpos i Hi) as (x & _ & ns & Hx & _ & Hns).
      by exists x, ns.
    + intros x Hx. destruct (index_elem_of _ _ Hx) as [i Hi].
      pose proof Hi as (k' & -> & Hk'%lookup_lt_Some & _)%index_Ok.
      destruct (Hpos (Z.of_nat k')) as (_ & es & ns & _ & Hes & Hns); [lia|].
      exists es, ns. unfold edges_for_vertex, neighbors_for_vertex, index_of.
      rewrite Hi. simpl. done.
Qed.

(** Two graphs made with the shared default list: the second one, after
    each got a vertex, has two vertices and one adjacency list.  Its one
    entry-free adjacency list is returned; once the lengths agree again, as
    in the graph A-B with a third vertex C, the queries by vertex return. *)
Lemma built_queries_return_witness :
  (let G : Graph string Edge := mkGraph ["A"; "B"] [[]] in
   ∃ es, edges_for_index G 0 = Ok es ∧
         ∀ e, e ∈ es →
              Edge.u e = 0%Z ∧
              (0 ≤ Edge.v e < Z.of_nat (length (_edges G)))%Z) ∧
  (let G : Graph string Edge :=
     mkGraph ["A"; "B"; "C"] [[Edge.mkEdge 0 1]; [Edge.mkEdge 1 0]; []] in
   ∃ es ns, edges_for_vertex G "B" = Ok es ∧
            neighbors_for_vertex G "B" = Ok ns).
Proof.
  split; intros G.
  - destruct (built_queries_return 0 G) as [Hpos _].
    + apply (built_add_vertex 0 (mkGraph ["A"] []) "B").
      apply (built_vertices_changed 0 (__init__ []) ["A"]). apply built_init.
    + apply Hpos. vm_compute. split; congruence.
  - destruct (built_queries_return 1 G) as [_ Hlen].
    + apply (built_add_edge_by_vertices 0 (__init__ ["A"; "B"; "C"]) "A" "B");
        [apply built_init|reflexivity].
    + destruct Hlen as (_ & _ & Hvertex); [reflexivity|].
      apply Hvertex. compute_done.
Defined.

(** ** An [add_edge] that fails half-way *)

(** X13.  When [u] resolves and [v] does not, [add_edge] raises [IndexError]
    only after it has appended the edge to the adjacency list of [u]: the
    graph it leaves has that one entry more, the same vertices, and
    [edge_count] one higher.  If the two sequences were equally long,
    [neighbors_for_index(u)] raises [IndexError] on the graph left behind. *)
Theorem add_edge_partial_failure {V E} `{EdgeLike E} (G : Graph V E) (e : E) :
  in_range (length (_edges G)) (edge_u e) →
  ¬ in_range (length (_edges G)) (edge_v e) →
  ∃ es,
    edges_for_index G (edge_u e) = Ok es ∧
    (add_edge e G).1 = Raise IndexError ∧
    _vertices (add_edge e G).2 = _vertices G ∧
    edges_for_index (add_edge e G).2 (edge_u e) = Ok (es ++ [e]) ∧
    edge_count (add_edge e G).2 = (edge_count G + 1)%Z ∧
    (length (_edges G) = length (_vertices G) →
     neighbors_for_index (add_edge e G).2 (edge_u e) = Raise IndexError).
Proof.
  intros [ku Hku]%norm_index_in_range Hv.
  assert (PyList.norm_index (length (_edges G)) (edge_v e) = None) as Hkv.
  { destruct (PyList.norm_index _ (edge_v e)) eqn:Hkv; [|done].
    destruct Hv. apply norm_index_in_range. eauto. }
  pose proof (norm_index_lt _ _ _ Hku) as Hlt.
  destruct (lookup_lt_is_Some_2 (_edges G) ku Hlt) as [es Hes].
  assert (edges_for_index (add_edge e G).2 (edge_u e) = Ok (es ++ [e])) as Hes'.
  { rewrite add_edge_unfold, Hku. cbv zeta. rewrite Hkv.
    unfold edges_for_index. cbn [snd _edges]. apply getitem_Ok. exists ku.
    rewrite length_alter. split; [done|].
    by rewrite lookup_alter_snoc, Hes, decide_True. }
  exists es. split_and!.
  - apply getitem_Ok. eauto.
  - rewrite add_edge_unfold, Hku. cbv zeta. by rewrite Hkv.
  - rewrite add_edge_unfold, Hku. cbv zeta. by rewrite Hkv.
  - done.
  - rewrite add_edge_unfold, Hku. cbv zeta. rewrite Hkv.
    unfold edge_count. cbn [snd _edges].
    rewrite sum_length_alter_snoc by done. lia.
  - intros Hlen.
    destruct (neighbors_for_index (add_edge e G).2 (edge_u e)) as [ns|err]
      eqn:Hns; [|by apply neighbors_for_index_Raise in Hns as ->].
    apply neighbors_for_index_Ok in Hns as (es' & Hget & Hall).
    assert (es' = es ++ [e]) as -> by congruence.
    apply Forall2_app_inv_l in Hall as (_ & ns2 & _ & Hlast & _).
    apply Forall2_cons_inv_l in Hlast as (x & _ & Hx & _).
    rewrite add_edge_unfold, Hku in Hx. cbv zeta in Hx. rewrite Hkv in Hx.
    unfold vertex_at in Hx. cbn [snd _vertices] in Hx.
    apply getitem_Ok in Hx as (k & Hk & _). destruct Hv.
    rewrite Hlen. apply norm_index_in_range. eauto.
Qed.

(** Two vertices, the edge 0 -> 2. *)
Lemma add_edge_partial_failure_witness :
  let G : Graph string Edge := __init__ ["A"; "B"] in
  let e := Edge.mkEdge 0 2 in
  ∃ es,
    edges_for_index G (edge_u e) = Ok es ∧
    (add_edge e G).1 = Raise IndexError ∧
    _vertices (add_edge e G).2 = _vertices G ∧
    edges_for_index (add_edge e G).2 (edge_u e) = Ok (es ++ [e]) ∧
    edge_count (add_edge e G).2 = (edge_count G + 1)%Z ∧
    (length (_edges G) = length (_vertices G) →
     neighbors_for_index (add_edge e G).2 (edge_u e) = Raise IndexError).
Proof.
  intros G e. apply (add_edge_partial_failure G e); compute_done.
Defined.

(** ** Further properties of [weighted_graph.py] *)

Section weighted_queries.
Context {V : Type} `{EqDecision V} {W : Type}.
Implicit Types (G : WeightedGraph.WeightedGraph V W).

Lemma mapM_with_weights G (es : list (WeightedEdge W)) :
  match mapM (λ edge, x ← vertex_at G (WeightedEdge.v edge);
                      mret (x, WeightedEdge.weight edge)) es with
  | Ok ps =>
      mapM (vertex_at G) (map edge_v es) = Ok ps.*1 ∧
      ps.*2 = WeightedEdge.weight <$> es
  | Raise err => mapM (vertex_at G) (map edge_v es) = Raise err
  end.
Proof.
  induction es as [|e es IH]; simpl; [done|].
  destruct (vertex_at G (WeightedEdge.v e)) as [x|err]; simpl; [|done].
  destruct (mapM _ es) as [ps|err]; simpl in *.
  - destruct IH as [IHns IHws]. rewrite IHns. simpl.
    split; [done|]. f_equal. exact IHws.
  - by rewrite IH.
Qed.

End weighted_queries.

(** X14.  [neighbors_for_index_with_weights] agrees with the two unweighted
    queries: when it returns pairs, their first components are exactly
    [neighbors_for_index(index)] and their second components are the weights
    of [edges_for_index(index)], in the same order; when it raises,
    [neighbors_for_index(index)] raises the same exception. *)
Theorem neighbors_with_weights_projections {V} `{EqDecision V} {W}
    (G : WeightedGraph.WeightedGraph V W) (index : Z) :
  match WeightedGraph.neighbors_for_index_with_weights G index with
  | Ok ps =>
      neighbors_for_index G index = Ok ps.*1 ∧
      ∃ es, edges_for_index G index = Ok es ∧
            ps.*2 = WeightedEdge.weight <$> es
  | Raise err => neighbors_for_index G index = Raise err
  end.
Proof.
  unfold WeightedGraph.neighbors_for_index_with_weights, neighbors_for_index,
    edges_for_index.
  destruct (PyList.getitem (_edges G) index) as [es|err]; simpl; [|done].
  pose proof (mapM_with_weights G es) as Hes.
  destruct (mapM _ es) as [ps|err]; [|done].
  destruct Hes as [Hns Hws]. split; [done|]. by exists es.
Qed.

(** X15.  The weighted [add_edge_by_vertices] raises [ValueError] exactly
    when one of the two values is not a vertex, and then leaves the graph as
    it was; when the two sequences are equally long and both values are
    vertices it returns. *)
Theorem weighted_add_edge_by_vertices_lookup {V} `{EqDecision V} {W}
    (G : WeightedGraph.WeightedGraph V W) (first second : V) (w : W) :
  ((WeightedGraph.add_edge_by_vertices first second w G).1 = Raise ValueError
   ↔ first ∉ _vertices G ∨ second ∉ _vertices G) ∧
  (first ∉ _vertices G ∨ second ∉ _vertices G →
   WeightedGraph.add_edge_by_vertices first second w G
   = (Raise ValueError, G)) ∧
  (length (_edges G) = length (_vertices G) →
   first ∈ _vertices G → second ∈ _vertices G →
   (WeightedGraph.add_edge_by_vertices first second w G).1 = Ok tt).
Proof.
  unfold WeightedGraph.add_edge_by_vertices,
    WeightedGraph.add_edge_by_indices, mbind, M_bind, query.
  destruct (PyList.index (_vertices G) first) as [iu|e1] eqn:Hfirst.
  - destruct (PyList.index (_vertices G) second) as [iv|e2] eqn:Hsecond.
    + apply index_Ok in Hfirst as (ku & -> & Hku & _).
      apply index_Ok in Hsecond as (kv & -> & Hkv & _).
      pose proof (list_elem_of_lookup_2 _ _ _ Hku).
      pose proof (list_elem_of_lookup_2 _ _ _ Hkv).
      apply lookup_lt_Some in Hku, Hkv.
      rewrite add_edge_unfold. simpl. split_and!.
      * split; [|naive_solver]. by repeat (case_match; simpl).
      * naive_solver.
      * intros Hlen _ _. rewrite !norm_index_nonneg by lia. done.
    + apply index_Raise in Hsecond as [-> Hsecond]. simpl.
      split_and!; [naive_solver|done|done].
  - apply index_Raise in Hfirst as [-> Hfirst]. simpl.
    split_and!; [naive_solver|done|done].
Qed.

(** Y is missing from the graph X: the call raises and changes nothing. *)
Lemma weighted_add_edge_by_vertices_lookup_witness :
  let G : WeightedGraph.WeightedGraph string nat :=
    WeightedGraph.__init__ ["X"] in
  WeightedGraph.add_edge_by_vertices "X" "Y" 5 G = (Raise ValueError, G) ∧
  (WeightedGraph.add_edge_by_vertices "X" "X" 5 G).1 = Ok tt.
Proof.
  intros G.
  destruct (weighted_add_edge_by_vertices_lookup G "X" "Y" 5) as (_ & Hout & _).
  destruct (weighted_add_edge_by_vertices_lookup G "X" "X" 5) as (_ & _ & Hin).
  split.
  - apply Hout. right. compute_done.
  - apply Hin; [reflexivity|compute_done..].
Defined.
